(** * Titan neural memory: the memory store, its surprise recurrence and the
      chunked orchestrator

    Shallow embedding of [model.py] (MemoryModule, LinearMemory) and of
    [pytitan/model/neural_memory.py] (NeuralMemory, the chunked version).
    The orchestrator imports [LinearMemory] from [pytitan.model.memory], a
    module that is not among the sources.  [condition] and [forward] below
    are the orchestrator with the class of that name of [model.py] in its
    place; the module [Imported] is the orchestrator with the class as the
    specification describes it, whose [forward] acts on the last axis of a
    batch of any rank.

    Tensors are a shape together with row-major data.  The element type and
    its arithmetic are an interface ([Scalar]): the program runs on float32,
    and every statement below holds for whatever the operations compute.
    The autodiff engine and the random initialisers are an interface too
    ([Runtime]).  Exceptions are values of [exn]; a raising call leaves the
    state it had reached, as in Python. *)

From Stdlib Require Import String Ascii Arith ZArith QArith Qabs Lia Bool List.
Import ListNotations.
Open Scope string_scope.
Open Scope list_scope.
Open Scope nat_scope.

Set Implicit Arguments.

(** ** Exceptions and results *)

Inductive exn : Type :=
| ValueError      (* raise ValueError(...) in _update_memory *)
| RuntimeError    (* raised by the tensor runtime: shapes, permute, split *)
| AttributeError  (* get_buffer / attribute lookup of a missing buffer *)
| IndexError      (* dimension out of range *)
| InitError.      (* raised by an initialiser *)

Inductive result (A : Type) : Type :=
| Ok (a : A)
| Err (e : exn).
Arguments Ok {A} a.
Arguments Err {A} e.

(** ** Scalars *)

Class Scalar (F : Type) : Type := {
  Fzero : F;
  Fone : F;
  Fadd : F -> F -> F;
  Fsub : F -> F -> F;
  Fmul : F -> F -> F;
  Fabs : F -> F;
  Flit : Q -> F   (* the value of a decimal literal such as 0.9 *)
}.

#[export] Instance Q_scalar : Scalar Q := {
  Fzero := 0%Q;
  Fone := 1%Q;
  Fadd := Qplus;
  Fsub := Qminus;
  Fmul := Qmult;
  Fabs := Qabs;
  Flit := fun q => q
}.

(** ** Tensors *)

Section Tensors.
Context {F : Type} `{Scalar F}.

Record tensor : Type := mkTensor { shape : list nat; data : list F }.

Definition numel (s : list nat) : nat := fold_right Nat.mul 1 s.

Definition ndim (t : tensor) : nat := length (shape t).

(** [torch.zeros_like] *)
Definition zeros_like (t : tensor) : tensor :=
  {| shape := shape t; data := repeat Fzero (numel (shape t)) |}.

(** A 0-dim tensor times a tensor: [eta*past_surprise], [self.lr*grad],
    [(1-alpha)*weight]. *)
Definition smul (c : F) (t : tensor) : tensor :=
  {| shape := shape t; data := map (Fmul c) (data t) |}.

(** Broadcasting of shapes, aligned at the trailing dimension: two sizes are
    compatible when they are equal or one of them is 1. *)
Fixpoint bc_rev (s g : list nat) : option (list nat) :=
  match s, g with
  | [], l => Some l
  | l, [] => Some l
  | a :: s', b :: g' =>
      match bc_rev s' g' with
      | None => None
      | Some r =>
          if a =? b then Some (a :: r)
          else if a =? 1 then Some (b :: r)
          else if b =? 1 then Some (a :: r)
          else None
      end
  end.

Definition broadcast_shapes (s g : list nat) : option (list nat) :=
  option_map (@rev nat) (bc_rev (rev s) (rev g)).

Fixpoint chunks (size n : nat) (d : list F) : list (list F) :=
  match n with
  | 0 => []
  | S n' => firstn size d :: chunks size n' (skipn size d)
  end.

(** Data of a tensor of shape [s] expanded to shape [r] (same rank, every
    size of [s] equal to that of [r] or 1). *)
Fixpoint expand (s r : list nat) (d : list F) : list F :=
  match s, r with
  | a :: s', b :: r' =>
      if a =? b then flat_map (expand s' r') (chunks (numel s') a d)
      else concat (repeat (expand s' r' d) b)
  | _, _ => d
  end.

Definition pad_shape (s r : list nat) : list nat :=
  repeat 1 (length r - length s) ++ s.

Definition broadcast_to (r : list nat) (t : tensor) : list F :=
  expand (pad_shape (shape t) r) r (data t).

Fixpoint map2 {A B C : Type} (f : A -> B -> C) (l : list A) (l' : list B) : list C :=
  match l, l' with
  | a :: t, b :: t' => f a b :: map2 f t t'
  | _, _ => []
  end.

(** Elementwise binary operation with broadcasting; incompatible shapes
    raise RuntimeError. *)
Definition tzip (f : F -> F -> F) (a b : tensor) : result tensor :=
  match broadcast_shapes (shape a) (shape b) with
  | None => Err RuntimeError
  | Some r => Ok {| shape := r; data := map2 f (broadcast_to r a) (broadcast_to r b) |}
  end.

Definition tadd : tensor -> tensor -> result tensor := tzip Fadd.

Definition fsum (l : list F) : F := fold_left Fadd l Fzero.

(** Row-major data of an [m] x [n] matrix given entrywise. *)
Definition tabulate2 (m n : nat) (f : nat -> nat -> F) : list F :=
  flat_map (fun i => map (f i) (seq 0 n)) (seq 0 m).

(** Entry [(i, j)] of row-major data with [cols] columns. *)
Definition entry (d : list F) (cols i j : nat) : F := nth (i * cols + j) d Fzero.

(** [t.permute(1,0)]: the number of dimensions must be 2. *)
Definition permute10 (t : tensor) : result tensor :=
  match shape t with
  | [r; c] => Ok {| shape := [c; r];
                    data := tabulate2 c r (fun j i => entry (data t) c i j) |}
  | _ => Err RuntimeError
  end.

Definition dot (k : nat) (a b : nat -> F) : F :=
  fsum (map (fun l => Fmul (a l) (b l)) (seq 0 k)).

(** [a @ b] for a 2-dimensional right operand, the only kind [forward]
    passes (it is the result of [permute(1,0)]).  The left operand is a
    vector, a matrix or a batch of matrices; a 0-dim left operand and
    mismatched inner sizes raise. *)
Definition matmul (a b : tensor) : result tensor :=
  match shape b with
  | [k'; n] =>
      match rev (shape a) with
      | [] => Err RuntimeError
      | [k] =>
          if k =? k' then
            Ok {| shape := [n];
                  data := tabulate2 1 n (fun i j =>
                    dot k (entry (data a) k i) (fun l => entry (data b) n l j)) |}
          else Err RuntimeError
      | k :: m :: rbatch =>
          if k =? k' then
            Ok {| shape := rev rbatch ++ [m; n];
                  data := tabulate2 (numel (rev rbatch) * m) n (fun i j =>
                    dot k (entry (data a) k i) (fun l => entry (data b) n l j)) |}
          else Err RuntimeError
      end
  | _ => Err RuntimeError
  end.

End Tensors.

Arguments tensor F : clear implicits.

(** ** State and exceptions

    A computation runs on a state and ends in a value or an exception; the
    state reached is kept in both cases. *)

Definition M (S A : Type) : Type := S -> S * result A.

Definition ret {S A : Type} (a : A) : M S A := fun s => (s, Ok a).

Definition bind {S A B : Type} (m : M S A) (f : A -> M S B) : M S B :=
  fun s => match m s with
           | (s', Ok a) => f a s'
           | (s', Err e) => (s', Err e)
           end.

Definition raise {S A : Type} (e : exn) : M S A := fun s => (s, Err e).

(** A call of a function that has no effect. *)
Definition lift {S A : Type} (r : result A) : M S A := fun s => (s, r).

Definition gets {S A : Type} (f : S -> A) : M S A := fun s => (s, Ok (f s)).

Definition modify {S : Type} (f : S -> S) : M S unit := fun s => (f s, Ok tt).

Declare Scope monad_scope.
Delimit Scope monad_scope with monad.
Notation "x <- c1 ;; c2" := (bind c1 (fun x => c2))
  (at level 100, c1 at next level, right associativity) : monad_scope.
Notation "c1 ;; c2" := (bind c1 (fun _ => c2))
  (at level 100, right associativity) : monad_scope.
Open Scope monad_scope.

(** [for a in l: body(a)] *)
Fixpoint for_each {S A : Type} (l : list A) (body : A -> M S unit) : M S unit :=
  match l with
  | [] => ret tt
  | a :: l' => body a ;; for_each l' body
  end.

(** What a run leaves to observe besides the objects: the records written by
    [logging.warning], and one mark per entry into [MemoryModule.update]. *)
Inductive event : Type :=
| Warning (msg : string)
| UpdateCall.

(** An object together with the trace of the run. *)
Record world (O : Type) : Type := mkWorld { obj : O; trace : list event }.
Arguments mkWorld {O} obj trace.

Definition emit {O : Type} (ev : event) : M (world O) unit :=
  modify (fun w => mkWorld (obj w) (trace w ++ [ev])).

(** [logging.warning(msg)] *)
Definition warning {O : Type} (msg : string) : M (world O) unit := emit (Warning msg).

(** ** Names *)

(** [needle in hay] on Python strings *)
Fixpoint contains (needle hay : string) : bool :=
  if String.prefix needle hay then true
  else match hay with
       | EmptyString => false
       | String _ hay' => contains needle hay'
       end.

(** [MemoryModule._get_corresponding_surprise_name] *)
Definition _get_corresponding_surprise_name (name : string) : string :=
  String.append name "_surprise_tpast".

(** ** MemoryModule *)

Section Memory.
Context {F : Type} `{Scalar F}.

(** The registry [nn.Module._buffers]: an insertion-ordered dictionary. *)
Definition buffers : Type := list (string * tensor F).

Fixpoint lookup (name : string) (b : buffers) : option (tensor F) :=
  match b with
  | [] => None
  | (k, v) :: b' => if String.eqb k name then Some v else lookup name b'
  end.

(** Assignment [d[name] = t] of an ordered dictionary: an existing key keeps
    its position, a new key goes last. *)
Fixpoint assign (name : string) (t : tensor F) (b : buffers) : buffers :=
  match b with
  | [] => [(name, t)]
  | (k, v) :: b' =>
      if String.eqb k name then (k, t) :: b' else (k, v) :: assign name t b'
  end.

Record MemoryModule : Type := mkMemoryModule {
  lr : F;
  dim_in : Z;
  dim_out : Z;
  _buffers : buffers
}.

Definition set_buffers (self : MemoryModule) (b : buffers) : MemoryModule :=
  mkMemoryModule (lr self) (dim_in self) (dim_out self) b.

Definition Mem : Type -> Type := M (world MemoryModule).

(** [self.register_buffer(name, t)].  The checks torch makes on the name
    (empty, dotted, clashing with another attribute) are not part of the
    model: every name registered below is either a key of the registry
    already or a layer name of the variant. *)
Definition register_buffer (name : string) (t : tensor F) : Mem unit :=
  modify (fun w => mkWorld (set_buffers (obj w) (assign name t (_buffers (obj w)))) (trace w)).

(** [self.get_buffer(name)] and the attribute access [self.<name>] *)
Definition get_buffer (name : string) : Mem (tensor F) :=
  fun w => match lookup name (_buffers (obj w)) with
           | Some t => (w, Ok t)
           | None => (w, Err AttributeError)
           end.

(** [self.named_buffers()] of a module without submodules.  It skips a
    buffer that is the same object as an earlier one; the buffers registered
    here are distinct objects (the tensor [construct_layers] of LinearMemory
    creates, the results of [zeros_like] and of the arithmetic of the
    update), so all of them are listed. *)
Definition named_buffers (self : MemoryModule) : list (string * tensor F) :=
  _buffers self.

Definition is_weight_name (name : string) : bool := negb (contains "surprise" name).

Definition get_named_weights (self : MemoryModule) : list (string * tensor F) :=
  filter (fun p => is_weight_name (fst p)) (named_buffers self).

Definition get_weights (self : MemoryModule) : list (tensor F) :=
  map snd (get_named_weights self).

(** [_construct_layers], given what the variant's [construct_layers]
    returned. *)
Definition _construct_layers (weights : list (string * tensor F)) : Mem unit :=
  for_each weights (fun p =>
    register_buffer (fst p) (snd p) ;;
    register_buffer (_get_corresponding_surprise_name (fst p)) (zeros_like (snd p))).

(** The body of the loop of [_update_memory]. *)
Definition update_entry (eta alpha : F) (p : option (tensor F) * (string * tensor F))
  : Mem unit :=
  let '(grad, (name, weight)) := p in
  let sname := _get_corresponding_surprise_name name in
  past_surprise <- get_buffer sname ;;
  match grad with
  | None => warning "Gradient for weight is None. Skipping update."
  | Some g =>
      lr_ <- gets (fun w => lr (obj w)) ;;
      surpise <- lift (tadd (smul eta past_surprise) (smul lr_ g)) ;;
      register_buffer sname surpise ;;
      w' <- lift (tadd (smul (Fsub Fone alpha) weight) surpise) ;;
      register_buffer name w'
  end.

Definition _update_memory (grads : list (option (tensor F))) (eta alpha : F) : Mem unit :=
  ws <- gets (fun w => get_named_weights (obj w)) ;;
  if negb (length grads =? length ws) then raise ValueError
  else for_each (combine grads ws) (update_entry eta alpha).

Definition update (grads : list (option (tensor F))) (eta alpha : F) : Mem unit :=
  emit UpdateCall ;; _update_memory grads eta alpha.

(** *** LinearMemory *)

(** [LinearMemory.forward]: [(self.model @ x.permute(1,0)).permute(1,0)] *)
Definition LinearMemory_forward (x : tensor F) : Mem (tensor F) :=
  model <- get_buffer "model" ;;
  xt <- lift (permute10 x) ;;
  y <- lift (matmul model xt) ;;
  lift (permute10 y).

End Memory.

Arguments MemoryModule F : clear implicits.
Arguments buffers F : clear implicits.

(** ** The rest of the tensor runtime used by the orchestrator *)

Section Layers.
Context {F : Type} `{Scalar F}.

(** [torch.empty] on a list of sizes: the shape, or RuntimeError for a negative size. *)
Fixpoint torch_empty (dims : list Z) : result (list nat) :=
  match dims with
  | [] => Ok []
  | d :: dims' =>
      if (d <? 0)%Z then Err RuntimeError
      else match torch_empty dims' with
           | Ok s => Ok (Z.to_nat d :: s)
           | Err e => Err e
           end
  end.

(** [x.narrow(1, start, len)] of a tensor of shape [d0 :: L :: rest] *)
Definition narrow1 (d0 L : nat) (rest : list nat) (d : list F) (start len : nat) : tensor F :=
  let P := numel rest in
  {| shape := d0 :: len :: rest;
     data := flat_map (fun i0 => firstn (len * P) (skipn ((i0 * L + start) * P) d))
                      (seq 0 d0) |}.

(** Number of pieces [torch.split] makes of a dimension of size [L] with a
    positive split size [c]. *)
Definition num_splits (L c : nat) : nat := Nat.max ((L + c - 1) / c) 1.

(** [torch.split(x, split_size, dim=1)] *)
Definition split1 (x : tensor F) (split_size : Z) : result (list (tensor F)) :=
  match shape x with
  | [] => Err RuntimeError
  | [_] => if (split_size <? 0)%Z then Err RuntimeError else Err IndexError
  | d0 :: L :: rest =>
      if (split_size <? 0)%Z then Err RuntimeError
      else if (split_size =? 0)%Z then
        if L =? 0 then Ok [narrow1 d0 L rest (data x) 0 0] else Err RuntimeError
      else
        let c := Z.to_nat split_size in
        let n := num_splits L c in
        Ok (map (fun i => narrow1 d0 L rest (data x) (i * c)
                            (if i <? n - 1 then c else L - c * (n - 1)))
                (seq 0 n))
  end.

(** [nn.Linear]: weight of shape (out_features, in_features) and bias of
    shape (out_features). *)
Record Linear : Type := mkLinear { weight : tensor F; bias : tensor F }.

(** [nn.Linear.forward]: [x @ weight^T + bias] on the last dimension. *)
Definition Linear_forward (l : Linear) (x : tensor F) : result (tensor F) :=
  match shape (weight l), rev (shape x) with
  | [out; inp], d :: rlead =>
      if d =? inp then
        Ok {| shape := rev rlead ++ [out];
              data := tabulate2 (numel (rev rlead)) out (fun r o =>
                Fadd (dot inp (entry (data x) inp r) (entry (data (weight l)) inp o))
                     (nth o (data (bias l)) Fzero)) |}
      else Err RuntimeError
  | _, _ => Err RuntimeError
  end.

(** [nn.L1Loss(reduction='sum')]: the operands are broadcast against each
    other, the absolute differences are summed into a 0-dim tensor. *)
Definition surprise_metric (input target : tensor F) : result F :=
  match broadcast_shapes (shape input) (shape target) with
  | None => Err RuntimeError
  | Some r =>
      Ok (fsum (map2 (fun a b => Fabs (Fsub a b)) (broadcast_to r input) (broadcast_to r target)))
  end.

End Layers.

Arguments Linear F : clear implicits.

(** What the surrounding runtime supplies and the code does not define:
    [torch.autograd.grad], the gradient of a scalar, given as the function of
    the leaves its graph computes, at the leaves' current values (one
    gradient per leaf, or an exception; [allow_unused] is not set, so no
    gradient is None); [nn.init.xavier_normal_], the random fill of a tensor
    of a given shape (or an exception); the random fill of the weight and
    bias of the affine layer created for a given attribute.
    [create_graph] and [retain_graph] keep the graph for a later
    differentiation and [detach] cuts a value from it: neither changes a
    value, and the graph itself is not part of the model. *)
Class Runtime (F : Type) : Type := {
  autograd_grad : (list (tensor F) -> result F) -> list (tensor F) -> result (list (tensor F));
  xavier_normal_ : list nat -> result (list F);
  linear_reset_parameters : string -> nat -> nat -> list F * list F
}.

(** ** NeuralMemory *)

Section Orchestrator.
Context {F : Type} `{Scalar F} `{Runtime F}.

(** [self.<attr> = nn.Linear(in_features, out_features, bias=True)] *)
Definition Linear_init (attr : string) (in_features out_features : Z) : result (Linear F) :=
  match torch_empty [out_features; in_features], torch_empty [out_features] with
  | Ok sw, Ok sb =>
      let '(w, b) := linear_reset_parameters attr (Z.to_nat in_features)
                       (Z.to_nat out_features) in
      Ok (mkLinear {| shape := sw; data := w |} {| shape := sb; data := b |})
  | Err e, _ => Err e
  | _, Err e => Err e
  end.

(** [LinearMemory.construct_layers] *)
Definition construct_layers (dim_in dim_out : Z) : result (list (string * tensor F)) :=
  match torch_empty [dim_out; dim_in] with
  | Err e => Err e
  | Ok s =>
      match xavier_normal_ s with
      | Err e => Err e
      | Ok d => Ok [("model", {| shape := s; data := d |})]
      end
  end.

(** [LinearMemory(dim_in, dim_out, lr)], that is [MemoryModule.__init__] *)
Definition LinearMemory_init (dim_in dim_out : Z) (lr : F) : result (MemoryModule F) :=
  match construct_layers dim_in dim_out with
  | Err e => Err e
  | Ok weights =>
      match _construct_layers weights (mkWorld (mkMemoryModule lr dim_in dim_out []) []) with
      | (w, Ok _) => Ok (obj w)
      | (_, Err e) => Err e
      end
  end.

Record NeuralMemory : Type := mkNeuralMemory {
  update_chunk_size : Z;
  memory : MemoryModule F;
  key : Linear F;
  value : Linear F;
  query : Linear F
}.

(** [NeuralMemory.__init__] *)
Definition NeuralMemory_init (dim_in dim_out update_chunk_size : Z) (lr : F)
  : result NeuralMemory :=
  match LinearMemory_init dim_in dim_out lr with
  | Err e => Err e
  | Ok mem =>
      match Linear_init "key" dim_in dim_in with
      | Err e => Err e
      | Ok k =>
          match Linear_init "value" dim_in dim_in with
          | Err e => Err e
          | Ok v =>
              match Linear_init "query" dim_in dim_in with
              | Err e => Err e
              | Ok q => Ok (mkNeuralMemory update_chunk_size mem k v q)
              end
          end
      end
  end.

(** The default of the [lr] argument, [1e-3]. *)
Definition default_lr : F := Flit (1 # 1000).

Definition NM : Type -> Type := M (world NeuralMemory).

Definition set_memory (self : NeuralMemory) (m : MemoryModule F) : NeuralMemory :=
  mkNeuralMemory (update_chunk_size self) m (key self) (value self) (query self).

(** A method call on [self.memory]. *)
Definition on_memory {A : Type} (m : Mem A) : NM A :=
  fun w => match m (mkWorld (memory (obj w)) (trace w)) with
           | (w', r) => (mkWorld (set_memory (obj w) (obj w')) (trace w'), r)
           end.

(** The memory module with its weights, in the order of [get_weights],
    replaced by [ws]. *)
Definition with_weights (m : MemoryModule F) (ws : list (tensor F)) : MemoryModule F :=
  set_buffers m
    (fold_left (fun b p => assign (fst (fst p)) (snd p) b)
               (combine (get_named_weights m) ws) (_buffers m)).

(** The scalar [s_t] of one chunk as a function of the memory weights: what
    the graph behind [s_t] computes. *)
Definition surprise_of (m : MemoryModule F) (k v : tensor F) (ws : list (tensor F))
  : result F :=
  match LinearMemory_forward k (mkWorld (with_weights m ws) []) with
  | (_, Ok pred) => surprise_metric pred v
  | (_, Err e) => Err e
  end.

(** The loop of [condition] over the chunks, from the running total.
    [self.memory] is here the [LinearMemory] of [model.py]; the class the
    file imports is the one of [Imported] below. *)
Fixpoint condition_loop (chunks : list (tensor F)) (s_t_total : F) : NM F :=
  match chunks with
  | [] => ret s_t_total
  | x :: chunks' =>
      k_ <- gets (fun w => key (obj w)) ;;
      k <- lift (Linear_forward k_ x) ;;
      v_ <- gets (fun w => value (obj w)) ;;
      v <- lift (Linear_forward v_ x) ;;
      pred <- on_memory (LinearMemory_forward k) ;;
      s_t <- lift (surprise_metric pred v) ;;
      let s_t_total := Fadd s_t_total s_t in
      m <- gets (fun w => memory (obj w)) ;;
      grads <- lift (autograd_grad (surprise_of m k v) (get_weights m)) ;;
      on_memory (update (map Some grads) (Flit (9 # 10)) (Flit (1 # 10))) ;;
      condition_loop chunks' s_t_total
  end.

(** [NeuralMemory.condition] *)
Definition condition (x : tensor F) : NM F :=
  c <- gets (fun w => update_chunk_size (obj w)) ;;
  chunks <- lift (split1 x c) ;;
  condition_loop chunks Fzero.

(** [NeuralMemory.forward] *)
Definition forward (x : tensor F) (query_flag : bool) : NM (tensor F) :=
  x' <- (if query_flag
         then (q <- gets (fun w => query (obj w)) ;; lift (Linear_forward q x))
         else ret x) ;;
  on_memory (LinearMemory_forward x').

End Orchestrator.

Arguments NeuralMemory F : clear implicits.

(** ** NeuralMemory of [model.py]: the version without chunks *)

Module SingleStep.
Section SingleStep.
Context {F : Type} `{Scalar F} `{Runtime F}.

Record NeuralMemory : Type := mkNeuralMemory {
  memory : MemoryModule F;
  key : Linear F;
  value : Linear F;
  query : Linear F
}.

(** [NeuralMemory.__init__] *)
Definition NeuralMemory_init (dim_in dim_out : Z) (lr : F) : result NeuralMemory :=
  match LinearMemory_init dim_in dim_out lr with
  | Err e => Err e
  | Ok mem =>
      match Linear_init "key" dim_in dim_in with
      | Err e => Err e
      | Ok k =>
          match Linear_init "value" dim_in dim_in with
          | Err e => Err e
          | Ok v =>
              match Linear_init "query" dim_in dim_in with
              | Err e => Err e
              | Ok q => Ok (mkNeuralMemory mem k v q)
              end
          end
      end
  end.

Definition NM : Type -> Type := M (world NeuralMemory).

Definition set_memory (self : NeuralMemory) (m : MemoryModule F) : NeuralMemory :=
  mkNeuralMemory m (key self) (value self) (query self).

(** A method call on [self.memory]. *)
Definition on_memory {A : Type} (m : Mem A) : NM A :=
  fun w => match m (mkWorld (memory (obj w)) (trace w)) with
           | (w', r) => (mkWorld (set_memory (obj w) (obj w')) (trace w'), r)
           end.

(** [NeuralMemory.condition] *)
Definition condition (x : tensor F) : NM F :=
  k_ <- gets (fun w => key (obj w)) ;;
  k <- lift (Linear_forward k_ x) ;;
  v_ <- gets (fun w => value (obj w)) ;;
  v <- lift (Linear_forward v_ x) ;;
  pred <- on_memory (LinearMemory_forward k) ;;
  s_t <- lift (surprise_metric pred v) ;;
  m <- gets (fun w => memory (obj w)) ;;
  grads <- lift (autograd_grad (surprise_of m k v) (get_weights m)) ;;
  on_memory (update (map Some grads) (Flit (9 # 10)) (Flit (1 # 10))) ;;
  ret s_t.

(** [NeuralMemory.forward] *)
Definition forward (x : tensor F) : NM (tensor F) :=
  q <- gets (fun w => query (obj w)) ;;
  x' <- lift (Linear_forward q x) ;;
  on_memory (LinearMemory_forward x').

End SingleStep.
End SingleStep.

Arguments SingleStep.NeuralMemory F : clear implicits.

(** ** NeuralMemory with the memory class it imports *)

Module Imported.
Section Imported.
Context {F : Type} `{Scalar F} `{Runtime F}.

(** Modelled from the spec: [LinearMemory.forward] of [pytitan.model.memory],
    the module [neural_memory.py] imports the class from, which is not among
    the sources.  The specification has it treat [x] as a batch of row
    vectors of width [dim_in] and compute [x @ weight^T], a batch of row
    vectors of width [dim_out], with no bias and no nonlinearity: the matrix
    product of [x], of any rank from 1, by the transpose of the one weight.
    The rest of the class ([construct_layers], the registry, [get_weights]
    and [update]) is in the specification what [model.py] has, and is taken
    from there. *)
Definition LinearMemory_forward (x : tensor F) : Mem (tensor F) :=
  weight <- get_buffer "model" ;;
  weight_t <- lift (permute10 weight) ;;
  lift (matmul x weight_t).

(** The scalar [s_t] of one chunk as a function of the memory weights. *)
Definition surprise_of (m : MemoryModule F) (k v : tensor F) (ws : list (tensor F))
  : result F :=
  match LinearMemory_forward k (mkWorld (with_weights m ws) []) with
  | (_, Ok pred) => surprise_metric pred v
  | (_, Err e) => Err e
  end.

(** The loop of [condition] over the chunks, from the running total. *)
Fixpoint condition_loop (chunks : list (tensor F)) (s_t_total : F) : NM F :=
  match chunks with
  | [] => ret s_t_total
  | x :: chunks' =>
      k_ <- gets (fun w => key (obj w)) ;;
      k <- lift (Linear_forward k_ x) ;;
      v_ <- gets (fun w => value (obj w)) ;;
      v <- lift (Linear_forward v_ x) ;;
      pred <- on_memory (LinearMemory_forward k) ;;
      s_t <- lift (surprise_metric pred v) ;;
      let s_t_total := Fadd s_t_total s_t in
      m <- gets (fun w => memory (obj w)) ;;
      grads <- lift (autograd_grad (surprise_of m k v) (get_weights m)) ;;
      on_memory (update (map Some grads) (Flit (9 # 10)) (Flit (1 # 10))) ;;
      condition_loop chunks' s_t_total
  end.

(** [NeuralMemory.condition] *)
Definition condition (x : tensor F) : NM F :=
  c <- gets (fun w => update_chunk_size (obj w)) ;;
  chunks <- lift (split1 x c) ;;
  condition_loop chunks Fzero.

(** [NeuralMemory.forward] *)
Definition forward (x : tensor F) (query_flag : bool) : NM (tensor F) :=
  x' <- (if query_flag
         then (q <- gets (fun w => query (obj w)) ;; lift (Linear_forward q x))
         else ret x) ;;
  on_memory (LinearMemory_forward x').

End Imported.
End Imported.

(** * Properties *)

Unset Implicit Arguments.

(** ** Names *)

Lemma contains_cons (needle : string) (c : ascii) (hay : string) :
  contains needle (String c hay)
  = if String.prefix needle (String c hay) then true else contains needle hay.
Proof. reflexivity. Qed.

Lemma contains_append_r (needle a b : string) :
  contains needle b = true -> contains needle (String.append a b) = true.
Proof.
  intros Hb. induction a as [|c a IH].
  - exact Hb.
  - change (String.append (String c a) b) with (String c (String.append a b)).
    rewrite contains_cons, IH.
    now destruct (String.prefix needle (String c (String.append a b))).
Qed.

Lemma surprise_name_marked (name : string) :
  contains "surprise" (_get_corresponding_surprise_name name) = true.
Proof.
  unfold _get_corresponding_surprise_name. apply contains_append_r. reflexivity.
Qed.

Lemma surprise_name_not_weight (name : string) :
  is_weight_name (_get_corresponding_surprise_name name) = false.
Proof. unfold is_weight_name. now rewrite surprise_name_marked. Qed.

Lemma length_append (a b : string) :
  String.length (String.append a b) = String.length a + String.length b.
Proof. induction a as [|c a IH]; simpl; [reflexivity | now rewrite IH]. Qed.

Lemma append_inj_l (a b s : string) :
  String.append a s = String.append b s -> a = b.
Proof.
  intros E.
  assert (L : String.length a = String.length b).
  { apply (f_equal String.length) in E. rewrite !length_append in E. lia. }
  revert b E L. induction a as [|c a IH]; intros [|d b] E L; simpl in *; try discriminate.
  - reflexivity.
  - injection E as -> E. f_equal. apply IH; [exact E | lia].
Qed.

Lemma surprise_name_inj (a b : string) :
  _get_corresponding_surprise_name a = _get_corresponding_surprise_name b -> a = b.
Proof. apply append_inj_l. Qed.

Lemma weight_name_not_surprise (name other : string) :
  is_weight_name name = true -> _get_corresponding_surprise_name other <> name.
Proof.
  intros Hw E. rewrite <- E, surprise_name_not_weight in Hw. discriminate.
Qed.

(** ** The registry *)

Section Registry.
Context {F : Type} `{Scalar F}.

Definition keys (b : buffers F) : list string := map fst b.

Lemma lookup_assign_eq (name : string) (t : tensor F) (b : buffers F) :
  lookup name (assign name t b) = Some t.
Proof.
  induction b as [|[k v] b IH]; simpl.
  - now rewrite String.eqb_refl.
  - destruct (String.eqb k name) eqn:E; simpl; rewrite E; auto.
Qed.

Lemma lookup_assign_neq (name other : string) (t : tensor F) (b : buffers F) :
  other <> name -> lookup other (assign name t b) = lookup other b.
Proof.
  intros Hne. induction b as [|[k v] b IH]; simpl.
  - destruct (String.eqb name other) eqn:E; auto.
    apply String.eqb_eq in E. congruence.
  - destruct (String.eqb k name) eqn:E; simpl.
    + apply String.eqb_eq in E. subst k.
      destruct (String.eqb name other) eqn:E'; auto.
      apply String.eqb_eq in E'. congruence.
    + now rewrite IH.
Qed.

Lemma lookup_Some_In (name : string) (t : tensor F) (b : buffers F) :
  lookup name b = Some t -> In (name, t) b.
Proof.
  induction b as [|[k v] b IH]; simpl; [discriminate|].
  destruct (String.eqb k name) eqn:E.
  - apply String.eqb_eq in E. intros [= ->]. subst. now left.
  - intros Hl. right. auto.
Qed.

Lemma lookup_Some_key (name : string) (t : tensor F) (b : buffers F) :
  lookup name b = Some t -> In name (keys b).
Proof.
  intros Hl. apply lookup_Some_In in Hl. apply (in_map fst) in Hl. exact Hl.
Qed.

Lemma In_lookup (name : string) (t : tensor F) (b : buffers F) :
  NoDup (keys b) -> In (name, t) b -> lookup name b = Some t.
Proof.
  induction b as [|[k v] b IH]; simpl; [tauto|].
  intros Hnd [E | Hin].
  - injection E as -> ->. now rewrite String.eqb_refl.
  - inversion Hnd as [|? ? Hk Hnd']; subst.
    destruct (String.eqb k name) eqn:E.
    + apply String.eqb_eq in E. subst k. exfalso. apply Hk.
      apply (in_map fst) in Hin. exact Hin.
    + auto.
Qed.

Lemma keys_assign_In (name : string) (t : tensor F) (b : buffers F) :
  In name (keys b) -> keys (assign name t b) = keys b.
Proof.
  induction b as [|[k v] b IH]; simpl; [tauto|].
  intros Hin. destruct (String.eqb k name) eqn:E; simpl.
  - reflexivity.
  - f_equal. apply IH. destruct Hin as [E' | Hin]; auto.
    subst k. rewrite String.eqb_refl in E. discriminate.
Qed.

Lemma keys_assign (name : string) (t : tensor F) (b : buffers F) :
  keys (assign name t b) = if existsb (String.eqb name) (keys b) then keys b
                           else keys b ++ [name].
Proof.
  induction b as [|[k v] b IH]; simpl; [reflexivity|].
  rewrite (String.eqb_sym name k).
  destruct (String.eqb k name) eqn:E; simpl; [reflexivity|].
  rewrite IH. now destruct (existsb (String.eqb name) (keys b)).
Qed.

Lemma NoDup_assign (name : string) (t : tensor F) (b : buffers F) :
  NoDup (keys b) -> NoDup (keys (assign name t b)).
Proof.
  intros Hnd. rewrite keys_assign.
  destruct (existsb (String.eqb name) (keys b)) eqn:E; [exact Hnd|].
  apply NoDup_app; [exact Hnd | repeat constructor; simpl; tauto |].
  intros k Hk [E' | []]. subst k.
  assert (existsb (String.eqb name) (keys b) = true); [|congruence].
  apply existsb_exists. exists name. split; [exact Hk | apply String.eqb_refl].
Qed.

End Registry.

(** ** One iteration of the update loop *)

Section UpdateLoop.
Context {F : Type} `{Scalar F}.

Local Abbreviation World := (world (MemoryModule F)).

Definition buf (w : World) : buffers F := _buffers (obj w).

Definition set_buf (w : World) (name : string) (t : tensor F) : World :=
  mkWorld (set_buffers (obj w) (assign name t (buf w))) (trace w).

Definition skip_message : string := "Gradient for weight is None. Skipping update.".

(** The surprise and the weight the recurrence computes from the old pair
    and the gradient. *)
Definition surprise_t (lr_ eta : F) (past_surprise g : tensor F) : result (tensor F) :=
  tadd (smul eta past_surprise) (smul lr_ g).

Definition weight_t (alpha : F) (weight surprise : tensor F) : result (tensor F) :=
  tadd (smul (Fsub Fone alpha) weight) surprise.

Lemma tzip_error (f : F -> F -> F) (a b : tensor F) (e : exn) :
  tzip f a b = Err e -> e = RuntimeError.
Proof.
  unfold tzip. destruct (broadcast_shapes (shape a) (shape b)); congruence.
Qed.

Lemma tzip_shape (f : F -> F -> F) (a b t : tensor F) :
  tzip f a b = Ok t -> broadcast_shapes (shape a) (shape b) = Some (shape t).
Proof.
  unfold tzip. destruct (broadcast_shapes (shape a) (shape b)); [|discriminate].
  now intros [= <-].
Qed.

Lemma tzip_defined (f : F -> F -> F) (a b : tensor F) (r : list nat) :
  broadcast_shapes (shape a) (shape b) = Some r -> exists t, tzip f a b = Ok t /\ shape t = r.
Proof. unfold tzip. intros ->. eexists. split; reflexivity. Qed.

(** The five ways an iteration can end. *)
Inductive entry_step (eta alpha : F) (grad : option (tensor F)) (name : string)
  (weight : tensor F) (w : World) : World -> result unit -> Prop :=
| es_missing :
    lookup (_get_corresponding_surprise_name name) (buf w) = None ->
    entry_step eta alpha grad name weight w w (Err AttributeError)
| es_skip past :
    lookup (_get_corresponding_surprise_name name) (buf w) = Some past ->
    grad = None ->
    entry_step eta alpha grad name weight w
      (mkWorld (obj w) (trace w ++ [Warning skip_message])) (Ok tt)
| es_bad_grad past g :
    lookup (_get_corresponding_surprise_name name) (buf w) = Some past ->
    grad = Some g ->
    surprise_t (lr (obj w)) eta past g = Err RuntimeError ->
    entry_step eta alpha grad name weight w w (Err RuntimeError)
| es_bad_weight past g surp :
    lookup (_get_corresponding_surprise_name name) (buf w) = Some past ->
    grad = Some g ->
    surprise_t (lr (obj w)) eta past g = Ok surp ->
    weight_t alpha weight surp = Err RuntimeError ->
    entry_step eta alpha grad name weight w
      (set_buf w (_get_corresponding_surprise_name name) surp) (Err RuntimeError)
| es_done past g surp wnew :
    lookup (_get_corresponding_surprise_name name) (buf w) = Some past ->
    grad = Some g ->
    surprise_t (lr (obj w)) eta past g = Ok surp ->
    weight_t alpha weight surp = Ok wnew ->
    entry_step eta alpha grad name weight w
      (set_buf (set_buf w (_get_corresponding_surprise_name name) surp) name wnew) (Ok tt).

Lemma update_entry_step (eta alpha : F) (grad : option (tensor F)) (name : string)
  (weight : tensor F) (w : World) :
  entry_step eta alpha grad name weight w
    (fst (update_entry eta alpha (grad, (name, weight)) w))
    (snd (update_entry eta alpha (grad, (name, weight)) w)).
Proof.
  unfold update_entry, bind, get_buffer.
  destruct (lookup (_get_corresponding_surprise_name name) (_buffers (obj w))) as [past|] eqn:El.
  2:{ simpl. now apply es_missing. }
  destruct grad as [g|].
  2:{ simpl. now apply es_skip with past. }
  unfold gets, lift.
  destruct (tadd (smul eta past) (smul (lr (obj w)) g)) as [surp|e] eqn:E1.
  2:{ simpl. pose proof (tzip_error _ _ _ _ E1) as ->. now apply es_bad_grad with past g. }
  unfold register_buffer, modify. simpl.
  destruct (tadd (smul (Fsub Fone alpha) weight) surp) as [wnew|e] eqn:E2.
  2:{ simpl. pose proof (tzip_error _ _ _ _ E2) as ->.
      now apply es_bad_weight with past g. }
  simpl. now apply es_done with past g.
Qed.

(** What an iteration does to the registry, whatever its outcome. *)
Lemma entry_step_lookup eta alpha grad name weight w w' r (k : string) :
  entry_step eta alpha grad name weight w w' r ->
  k <> name -> k <> _get_corresponding_surprise_name name ->
  lookup k (buf w') = lookup k (buf w).
Proof.
  intros Hs Hn Hsn. destruct Hs; try reflexivity.
  - unfold set_buf, buf. simpl. now apply lookup_assign_neq.
  - unfold set_buf, buf. simpl. rewrite !lookup_assign_neq; auto.
Qed.

Lemma entry_step_lr eta alpha grad name weight w w' r :
  entry_step eta alpha grad name weight w w' r -> lr (obj w') = lr (obj w).
Proof. intros Hs. destruct Hs; reflexivity. Qed.

Lemma entry_step_keys eta alpha grad name weight w w' r :
  entry_step eta alpha grad name weight w w' r ->
  In name (keys (buf w)) ->
  keys (buf w') = keys (buf w).
Proof.
  intros Hs Hin. destruct Hs as [| | |past g surp El|past g surp wnew El]; try reflexivity.
  - unfold set_buf, buf. simpl. apply keys_assign_In.
    now apply lookup_Some_key with past.
  - unfold set_buf, buf. simpl.
    assert (K : keys (assign (_get_corresponding_surprise_name name) surp (buf w)) = keys (buf w)).
    { apply keys_assign_In. now apply lookup_Some_key with past. }
    rewrite keys_assign_In; [exact K|]. unfold buf in K. now rewrite K.
Qed.

Lemma entry_step_error eta alpha grad name weight w w' e :
  entry_step eta alpha grad name weight w w' (Err e) ->
  e = AttributeError \/ e = RuntimeError.
Proof. intros Hs. inversion Hs; auto. Qed.


(** ** The update loop *)

Definition entry_name (p : option (tensor F) * (string * tensor F)) : string :=
  fst (snd p).

Lemma for_each_cons {S A : Type} (a : A) (l : list A) (body : A -> M S unit) (s : S) :
  for_each (a :: l) body s
  = match body a s with
    | (s1, Ok _) => for_each l body s1
    | (s1, Err e) => (s1, Err e)
    end.
Proof. reflexivity. Qed.

(** Destructs the first iteration of a run of the loop. *)
Ltac loop_head Hrun Hs :=
  rewrite for_each_cons in Hrun;
  match type of Hrun with
  | context [update_entry ?eta ?alpha (?g, (?n, ?wt)) ?w] =>
      pose proof (update_entry_step eta alpha g n wt w) as Hs;
      destruct (update_entry eta alpha (g, (n, wt)) w) as [? [[]|?]];
      simpl in Hs
  end.

Lemma loop_frame (eta alpha : F) l (w w' : World) r (k : string) :
  for_each l (update_entry eta alpha) w = (w', r) ->
  (forall p, In p l -> k <> entry_name p /\ k <> _get_corresponding_surprise_name (entry_name p)) ->
  lookup k (buf w') = lookup k (buf w).
Proof.
  revert w. induction l as [|[g [n wt]] l IH]; intros w Hrun Hk.
  - injection Hrun as <- _. reflexivity.
  - destruct (Hk (g, (n, wt)) (or_introl eq_refl)) as [Hn Hsn]. simpl in Hn, Hsn.
    loop_head Hrun Hs.
    + rewrite (IH _ Hrun); [|intros p Hp; apply Hk; now right].
      eapply entry_step_lookup; eauto.
    + injection Hrun as <- _. eapply entry_step_lookup; eauto.
Qed.

Lemma loop_lr (eta alpha : F) l (w w' : World) r :
  for_each l (update_entry eta alpha) w = (w', r) -> lr (obj w') = lr (obj w).
Proof.
  revert w. induction l as [|[g [n wt]] l IH]; intros w Hrun.
  - injection Hrun as <- _. reflexivity.
  - loop_head Hrun Hs.
    + rewrite (IH _ Hrun). eapply entry_step_lr; eauto.
    + injection Hrun as <- _. eapply entry_step_lr; eauto.
Qed.

Lemma loop_keys (eta alpha : F) l (w w' : World) r :
  for_each l (update_entry eta alpha) w = (w', r) ->
  (forall p, In p l -> In (entry_name p) (keys (buf w))) ->
  keys (buf w') = keys (buf w).
Proof.
  revert w. induction l as [|[g [n wt]] l IH]; intros w Hrun Hin.
  - injection Hrun as <- _. reflexivity.
  - pose proof (Hin (g, (n, wt)) (or_introl eq_refl)) as Hn. simpl in Hn.
    loop_head Hrun Hs.
    + pose proof (entry_step_keys _ _ _ _ _ _ _ _ Hs Hn) as K.
      rewrite (IH _ Hrun); [exact K|].
      intros p Hp. rewrite K. apply Hin. now right.
    + injection Hrun as <- _. eapply entry_step_keys; eauto.
Qed.

Lemma loop_error (eta alpha : F) l (w w' : World) e :
  for_each l (update_entry eta alpha) w = (w', Err e) ->
  e = AttributeError \/ e = RuntimeError.
Proof.
  revert w. induction l as [|[g [n wt]] l IH]; intros w Hrun.
  - discriminate.
  - loop_head Hrun Hs.
    + eauto.
    + injection Hrun as _ <-. eapply entry_step_error; eauto.
Qed.

(** The warnings of a run that completes: one per gradient that is None, in
    order. *)
Definition is_none {A : Type} (o : option A) : bool :=
  match o with None => true | Some _ => false end.

Definition skipped (l : list (option (tensor F) * (string * tensor F))) : list event :=
  map (fun _ => Warning skip_message) (filter (fun p => is_none (fst p)) l).

Lemma loop_trace (eta alpha : F) l (w w' : World) :
  for_each l (update_entry eta alpha) w = (w', Ok tt) ->
  trace w' = trace w ++ skipped l.
Proof.
  revert w. induction l as [|[g [n wt]] l IH]; intros w Hrun.
  - injection Hrun as <-. unfold skipped. simpl. now rewrite app_nil_r.
  - loop_head Hrun Hs; [|discriminate].
    rewrite (IH _ Hrun). unfold skipped.
    inversion Hs; subst; simpl.
    + now rewrite <- app_assoc.
    + reflexivity.
Qed.

(** A run never marks an entry into [update]. *)
Lemma loop_no_update_mark (eta alpha : F) l (w w' : World) r :
  for_each l (update_entry eta alpha) w = (w', r) ->
  exists evs, trace w' = trace w ++ evs /\ ~ In UpdateCall evs.
Proof.
  revert w. induction l as [|[g [n wt]] l IH]; intros w Hrun.
  - injection Hrun as <- _. exists []. now rewrite app_nil_r.
  - assert (Hstep : forall w1 r1, entry_step eta alpha g n wt w w1 r1 ->
              exists evs, trace w1 = trace w ++ evs /\ ~ In UpdateCall evs).
    { intros w1 r1 Hs. destruct Hs;
        try (exists []; rewrite app_nil_r; split; [reflexivity | tauto]).
      exists [Warning skip_message]. split; [reflexivity|].
      simpl. intros [E|[]]. discriminate. }
    loop_head Hrun Hs.
    + destruct (Hstep _ _ Hs) as (e1 & E1 & N1).
      destruct (IH _ Hrun) as (e2 & E2 & N2).
      exists (e1 ++ e2). rewrite E2, E1, app_assoc. split; [reflexivity|].
      intros Hin. apply in_app_or in Hin. tauto.
    + injection Hrun as <- _. eauto.
Qed.

(** The entries of a run are well named when they carry pairwise different
    names, none of which has the surprise marker: this is the case of every
    list the loop is run on, a zip with [get_named_weights]. *)
Definition well_named (l : list (option (tensor F) * (string * tensor F))) : Prop :=
  NoDup (map entry_name l) /\ forall p, In p l -> is_weight_name (entry_name p) = true.

Lemma well_named_tail p l : well_named (p :: l) -> well_named l.
Proof.
  intros [Hnd Hw]. split.
  - now inversion Hnd.
  - intros q Hq. apply Hw. now right.
Qed.

(** Neither buffer of a well-named head is touched by the tail. *)
Lemma well_named_head_apart p l q :
  well_named (p :: l) -> In q l ->
  (entry_name p <> entry_name q
   /\ entry_name p <> _get_corresponding_surprise_name (entry_name q))
  /\ (_get_corresponding_surprise_name (entry_name p) <> entry_name q
      /\ _get_corresponding_surprise_name (entry_name p)
         <> _get_corresponding_surprise_name (entry_name q)).
Proof.
  intros [Hnd Hw] Hq.
  assert (Hne : entry_name p <> entry_name q).
  { inversion Hnd as [|? ? Hnotin _]; subst. intros E. apply Hnotin. rewrite E.
    now apply in_map. }
  repeat split.
  - exact Hne.
  - intros E. symmetry in E. revert E. apply weight_name_not_surprise.
    apply Hw. now left.
  - apply weight_name_not_surprise. apply Hw. now right.
  - intros E. apply Hne. now apply surprise_name_inj.
Qed.

(** What a completed run has written for one of its entries. *)
Definition entry_result (eta alpha : F) (w w' : World)
  (p : option (tensor F) * (string * tensor F)) : Prop :=
  let name := entry_name p in
  let sname := _get_corresponding_surprise_name name in
  match fst p with
  | Some g =>
      exists past surp wnew,
        lookup sname (buf w) = Some past
        /\ surprise_t (lr (obj w)) eta past g = Ok surp
        /\ weight_t alpha (snd (snd p)) surp = Ok wnew
        /\ lookup sname (buf w') = Some surp
        /\ lookup name (buf w') = Some wnew
  | None =>
      lookup sname (buf w') = lookup sname (buf w)
      /\ lookup name (buf w') = lookup name (buf w)
  end.

Lemma loop_spec (eta alpha : F) l (w w' : World) p :
  for_each l (update_entry eta alpha) w = (w', Ok tt) ->
  well_named l -> In p l ->
  entry_result eta alpha w w' p.
Proof.
  revert w. induction l as [|[g [n wt]] l IH]; intros w Hrun Hwn Hin; [destruct Hin|].
  pose proof (well_named_tail _ _ Hwn) as Hwn'.
  pose proof Hrun as Hrun0.
  loop_head Hrun Hs; [|discriminate].
  destruct Hin as [<- | Hin].
  - (* the head: written now, kept by the tail *)
    assert (Kn : lookup n (buf w') = lookup n (buf w0)).
    { eapply loop_frame; [exact Hrun|]. intros q Hq.
      apply (well_named_head_apart _ _ q Hwn Hq). }
    assert (Ks : lookup (_get_corresponding_surprise_name n) (buf w')
                 = lookup (_get_corresponding_surprise_name n) (buf w0)).
    { eapply loop_frame; [exact Hrun|]. intros q Hq.
      apply (well_named_head_apart _ _ q Hwn Hq). }
    unfold entry_result, entry_name. simpl. rewrite Kn, Ks.
    inversion Hs; subst; simpl.
    + split; reflexivity.
    + exists past, surp, wnew. repeat split; auto.
      * unfold set_buf, buf. simpl. rewrite lookup_assign_neq.
        -- apply lookup_assign_eq.
        -- apply weight_name_not_surprise.
           destruct Hwn as [_ Hw]. apply (Hw (Some g0, (n, wt))). now left.
      * unfold set_buf, buf. simpl. apply lookup_assign_eq.
  - (* an entry of the tail: its buffers are as before the head ran *)
    specialize (IH _ Hrun Hwn' Hin).
    destruct (well_named_head_apart _ _ p Hwn Hin) as [[A1 A2] [A3 A4]]. simpl in A1, A2, A3, A4.
    assert (Kn : lookup (entry_name p) (buf w0) = lookup (entry_name p) (buf w)).
    { eapply entry_step_lookup; eauto. }
    assert (Ks : lookup (_get_corresponding_surprise_name (entry_name p)) (buf w0)
                 = lookup (_get_corresponding_surprise_name (entry_name p)) (buf w)).
    { eapply entry_step_lookup; eauto. }
    unfold entry_result in *. rewrite (entry_step_lr _ _ _ _ _ _ _ _ Hs), Kn, Ks in IH. exact IH.
Qed.

(** ** A call of [update] *)

Lemma update_run (grads : list (option (tensor F))) (eta alpha : F) (w : World) :
  update grads eta alpha w
  = let w0 := mkWorld (obj w) (trace w ++ [UpdateCall]) in
    if length grads =? length (get_named_weights (obj w))
    then for_each (combine grads (get_named_weights (obj w))) (update_entry eta alpha) w0
    else (w0, Err ValueError).
Proof.
  unfold update, _update_memory, bind, emit, modify, gets, raise. simpl.
  now destruct (length grads =? length (get_named_weights (obj w))).
Qed.

Lemma weight_names (b : buffers F) :
  map fst (filter (fun p : string * tensor F => is_weight_name (fst p)) b)
  = filter is_weight_name (keys b).
Proof.
  induction b as [|[k v] b IH]; simpl; [reflexivity|].
  destruct (is_weight_name k); simpl; now rewrite IH.
Qed.

Lemma NoDup_weight_names (self : MemoryModule F) :
  NoDup (keys (_buffers self)) -> NoDup (map fst (get_named_weights self)).
Proof.
  intros Hnd. unfold get_named_weights, named_buffers. rewrite weight_names.
  now apply NoDup_filter.
Qed.

Lemma named_weight_is_weight (self : MemoryModule F) (name : string) (t : tensor F) :
  In (name, t) (get_named_weights self) -> is_weight_name name = true.
Proof.
  unfold get_named_weights. intros Hin. apply filter_In in Hin. exact (proj2 Hin).
Qed.

Lemma named_weight_lookup (self : MemoryModule F) (name : string) (t : tensor F) :
  NoDup (keys (_buffers self)) ->
  In (name, t) (get_named_weights self) -> lookup name (_buffers self) = Some t.
Proof.
  intros Hnd Hin. apply In_lookup; [exact Hnd|].
  unfold get_named_weights in Hin. apply filter_In in Hin. exact (proj1 Hin).
Qed.

Lemma lookup_named_weight (self : MemoryModule F) (name : string) (t : tensor F) :
  lookup name (_buffers self) = Some t -> is_weight_name name = true ->
  In (name, t) (get_named_weights self).
Proof.
  intros Hl Hw. unfold get_named_weights. apply filter_In. split.
  - now apply lookup_Some_In.
  - exact Hw.
Qed.

Lemma combine_entry_names {A : Type} (gs : list A) (ws : list (string * tensor F)) :
  forall k, In k (map (fun p : A * (string * tensor F) => fst (snd p)) (combine gs ws)) ->
            In k (map fst ws).
Proof.
  revert ws. induction gs as [|g gs IH]; intros [|[n t] ws] k; simpl; try tauto.
  intros [E | Hin]; [now left | right; eauto].
Qed.

Lemma well_named_combine (grads : list (option (tensor F))) (ws : list (string * tensor F)) :
  NoDup (map fst ws) -> (forall n t, In (n, t) ws -> is_weight_name n = true) ->
  well_named (combine grads ws).
Proof.
  intros Hnd Hw. split.
  - revert ws Hnd Hw. induction grads as [|g gs IH]; intros [|[n t] ws] Hnd Hw; simpl;
      try constructor.
    + inversion Hnd as [|? ? Hnotin _]; subst. intros Hin. apply Hnotin.
      now apply (combine_entry_names gs ws).
    + apply IH; [now inversion Hnd | intros n' t' Hin'; apply (Hw n' t'); now right].
  - intros [g [n t]] Hin. apply in_combine_r in Hin. now apply (Hw n t).
Qed.

Lemma well_named_update (self : MemoryModule F) (grads : list (option (tensor F))) :
  NoDup (keys (_buffers self)) -> well_named (combine grads (get_named_weights self)).
Proof.
  intros Hnd. apply well_named_combine.
  - now apply NoDup_weight_names.
  - apply named_weight_is_weight.
Qed.

Lemma nth_error_combine {A B : Type} (l : list A) (l' : list B) (i : nat) (a : A) (b : B) :
  nth_error l i = Some a -> nth_error l' i = Some b -> nth_error (combine l l') i = Some (a, b).
Proof.
  revert l l'. induction i as [|i IH]; intros [|x l] [|y l']; simpl; try discriminate.
  - now intros [= ->] [= ->].
  - apply IH.
Qed.

(** C1.  After a call of [update] that completes, the surprise buffer of a
    weight whose gradient [g] was provided holds [eta*surprise_old + lr*g]
    and the weight holds [(1-alpha)*weight_old + (eta*surprise_old + lr*g)],
    where [surprise_old] and [weight_old] are the buffers before the call and
    [lr] is the learning rate of the store. *)
Theorem update_applies_recurrence
  (self : MemoryModule F) (tr : list event) (grads : list (option (tensor F)))
  (eta alpha : F) (w' : World) (i : nat) (name : string)
  (weight_old surprise_old g : tensor F) :
  NoDup (keys (_buffers self)) ->
  update grads eta alpha (mkWorld self tr) = (w', Ok tt) ->
  nth_error (get_named_weights self) i = Some (name, weight_old) ->
  nth_error grads i = Some (Some g) ->
  lookup (_get_corresponding_surprise_name name) (_buffers self) = Some surprise_old ->
  exists surprise_new weight_new,
    tadd (smul eta surprise_old) (smul (lr self) g) = Ok surprise_new
    /\ tadd (smul (Fsub Fone alpha) weight_old) surprise_new = Ok weight_new
    /\ lookup (_get_corresponding_surprise_name name) (buf w') = Some surprise_new
    /\ lookup name (buf w') = Some weight_new.
Proof.
  intros Hnd Hrun Hw Hg Hs.
  rewrite update_run in Hrun. simpl in Hrun.
  destruct (length grads =? length (get_named_weights self)); [|discriminate].
  pose proof (nth_error_In _ _ (nth_error_combine _ _ _ _ _ Hg Hw)) as Hin.
  pose proof (loop_spec _ _ _ _ _ _ Hrun (well_named_update self grads Hnd) Hin) as R.
  unfold entry_result, entry_name, buf in R. simpl in R.
  destruct R as (past & surp & wnew & Hp & H1 & H2 & H3 & H4).
  rewrite Hs in Hp. injection Hp as <-.
  exists surp, wnew. auto.
Qed.

(** C2.  A call of [update] with a number of gradients other than the number
    of weight entries raises the ValueError of the length check and leaves
    the whole store as it was; with equal numbers this error is not raised. *)
Theorem update_length_check
  (w : World) (grads : list (option (tensor F))) (eta alpha : F) :
  if length grads =? length (get_named_weights (obj w))
  then snd (update grads eta alpha w) <> Err ValueError
  else snd (update grads eta alpha w) = Err ValueError
       /\ obj (fst (update grads eta alpha w)) = obj w
       /\ trace (fst (update grads eta alpha w)) = trace w ++ [UpdateCall].
Proof.
  rewrite update_run. simpl.
  destruct (length grads =? length (get_named_weights (obj w))).
  - destruct (for_each _ _ _) as [w1 [[]|e]] eqn:Hrun; simpl; [discriminate|].
    intros [= ->]. destruct (loop_error _ _ _ _ _ _ Hrun); discriminate.
  - simpl. auto.
Qed.

(** ** The pairing invariant *)

Lemma bc_rev_refl (s : list nat) : bc_rev s s = Some s.
Proof.
  induction s as [|a s IH]; simpl; [reflexivity|].
  now rewrite IH, Nat.eqb_refl.
Qed.

Lemma bc_rev_absorb (s g r : list nat) :
  bc_rev s g = Some r -> bc_rev s r = Some r.
Proof.
  revert g r. induction s as [|a s IH]; intros g r Hb.
  - now destruct r.
  - destruct g as [|b g].
    + simpl in Hb. injection Hb as <-. apply bc_rev_refl.
    + simpl in Hb. destruct (bc_rev s g) as [r0|] eqn:E; [|discriminate].
      apply IH in E.
      destruct (a =? b) eqn:Eab.
      { injection Hb as <-. simpl. now rewrite E, Nat.eqb_refl. }
      destruct (a =? 1) eqn:Ea1.
      { injection Hb as <-. simpl. now rewrite E, Eab, Ea1. }
      destruct (b =? 1); [|discriminate].
      injection Hb as <-. simpl. now rewrite E, Nat.eqb_refl.
Qed.

Lemma broadcast_absorb (s g r : list nat) :
  broadcast_shapes s g = Some r -> broadcast_shapes s r = Some r.
Proof.
  unfold broadcast_shapes. destruct (bc_rev (rev s) (rev g)) as [r0|] eqn:E; [|discriminate].
  simpl. intros [= <-]. rewrite rev_involutive, (bc_rev_absorb _ _ _ E). simpl.
  reflexivity.
Qed.

(** Every weight of the registry has a surprise buffer, found under the
    weight's name with the suffix, of the weight's shape; and no name is
    registered twice. *)
Definition paired (self : MemoryModule F) : Prop :=
  NoDup (keys (_buffers self))
  /\ forall name wt, lookup name (_buffers self) = Some wt -> is_weight_name name = true ->
       exists s, lookup (_get_corresponding_surprise_name name) (_buffers self) = Some s
                 /\ shape s = shape wt.

(** Under the invariant the weight of the recurrence is defined as soon as
    the surprise is. *)
Lemma weight_t_defined (lr_ eta alpha : F) (past wt g surp : tensor F) :
  shape past = shape wt ->
  surprise_t lr_ eta past g = Ok surp ->
  exists wnew, weight_t alpha wt surp = Ok wnew /\ shape wnew = shape surp.
Proof.
  intros Hsh Hs. apply tzip_shape in Hs. simpl in Hs.
  apply broadcast_absorb in Hs. unfold weight_t, tadd.
  apply tzip_defined. simpl. now rewrite <- Hsh.
Qed.

Lemma entry_step_paired eta alpha grad name wt (w w1 : World) r :
  entry_step eta alpha grad name wt w w1 r ->
  lookup name (buf w) = Some wt -> is_weight_name name = true ->
  paired (obj w) -> paired (obj w1).
Proof.
  intros Hs Hl Hw [Hnd Hp].
  destruct (Hp _ _ Hl Hw) as (s & Hls & Hsh).
  destruct Hs as [| | |past g surp El Eg E1 E2|past g surp wnew El Eg E1 E2];
    try (split; assumption).
  - (* the weight cannot fail after the surprise *)
    unfold buf in El. rewrite Hls in El. injection El as <-.
    destruct (weight_t_defined _ _ alpha _ _ _ _ Hsh E1) as (wnew & E & _). congruence.
  - unfold buf in El. rewrite Hls in El. injection El as <-.
    destruct (weight_t_defined _ _ alpha _ _ _ _ Hsh E1) as (wnew' & E & Hsh').
    rewrite E2 in E. injection E as <-.
    set (sname := _get_corresponding_surprise_name name) in *.
    assert (Hsn : sname <> name) by (now apply weight_name_not_surprise).
    unfold set_buf, buf. simpl. split.
    + now repeat apply NoDup_assign.
    + unfold set_buffers. simpl. intros k t Hk Hkw.
      destruct (String.eqb_spec k name) as [-> | Hkn].
      * rewrite lookup_assign_eq in Hk. injection Hk as <-.
        exists surp. split; [|now symmetry].
        rewrite lookup_assign_neq by exact Hsn. apply lookup_assign_eq.
      * assert (Hks : k <> sname).
        { intros ->. unfold sname in Hkw. rewrite surprise_name_not_weight in Hkw.
          discriminate. }
        rewrite !lookup_assign_neq in Hk by assumption.
        destruct (Hp _ _ Hk Hkw) as (s' & Hls' & Hsh'').
        exists s'. split; [|exact Hsh''].
        rewrite !lookup_assign_neq; [exact Hls' | |].
        -- intros E. apply Hkn. now apply surprise_name_inj.
        -- now apply weight_name_not_surprise.
Qed.

Lemma entry_step_ok eta alpha grad name wt (w w1 : World) r :
  entry_step eta alpha grad name wt w w1 r ->
  lookup name (buf w) = Some wt -> is_weight_name name = true ->
  paired (obj w) ->
  (forall g, grad = Some g -> broadcast_shapes (shape wt) (shape g) <> None) ->
  r = Ok tt.
Proof.
  intros Hs Hl Hw [Hnd Hp] Hg.
  destruct (Hp _ _ Hl Hw) as (s & Hls & Hsh).
  destruct Hs as [El|past El Eg|past g El Eg E1|past g surp El Eg E1 E2|]; try reflexivity.
  - unfold buf in El. congruence.
  - unfold buf in El. rewrite Hls in El. injection El as <-.
    specialize (Hg g Eg). unfold surprise_t, tadd, tzip in E1. simpl in E1.
    rewrite Hsh in E1. destruct (broadcast_shapes (shape wt) (shape g)); congruence.
  - unfold buf in El. rewrite Hls in El. injection El as <-.
    destruct (weight_t_defined _ _ alpha _ _ _ _ Hsh E1) as (wnew & E & _). congruence.
Qed.

(** The weights the loop holds are those of the registry. *)
Definition current (l : list (option (tensor F) * (string * tensor F))) (w : World) : Prop :=
  forall p, In p l -> lookup (entry_name p) (buf w) = Some (snd (snd p)).

Lemma current_tail eta alpha g n wt l (w w1 : World) r :
  entry_step eta alpha g n wt w w1 r ->
  well_named ((g, (n, wt)) :: l) -> current ((g, (n, wt)) :: l) w -> current l w1.
Proof.
  intros Hs Hwn Hc p Hp.
  destruct (well_named_head_apart _ _ p Hwn Hp) as [[A1 A2] [A3 A4]]. simpl in A1, A2, A3, A4.
  rewrite (entry_step_lookup _ _ _ _ _ _ _ _ (entry_name p) Hs); auto.
  apply Hc. now right.
Qed.

Lemma loop_paired (eta alpha : F) l (w w' : World) r :
  for_each l (update_entry eta alpha) w = (w', r) ->
  well_named l -> current l w -> paired (obj w) -> paired (obj w').
Proof.
  revert w. induction l as [|[g [n wt]] l IH]; intros w Hrun Hwn Hc Hp.
  - injection Hrun as <- _. exact Hp.
  - assert (Hl : lookup n (buf w) = Some wt) by (apply (Hc (g, (n, wt))); now left).
    assert (Hw : is_weight_name n = true) by (apply (proj2 Hwn (g, (n, wt))); now left).
    loop_head Hrun Hs.
    + apply (IH _ Hrun).
      * eapply well_named_tail; eauto.
      * eapply current_tail; eauto.
      * eapply entry_step_paired; eauto.
    + injection Hrun as <- _. eapply entry_step_paired; eauto.
Qed.

Lemma loop_ok (eta alpha : F) l (w : World) :
  well_named l -> current l w -> paired (obj w) ->
  (forall p g, In p l -> fst p = Some g ->
               broadcast_shapes (shape (snd (snd p))) (shape g) <> None) ->
  exists w', for_each l (update_entry eta alpha) w = (w', Ok tt).
Proof.
  revert w. induction l as [|[g [n wt]] l IH]; intros w Hwn Hc Hp Hg.
  - exists w. reflexivity.
  - assert (Hl : lookup n (buf w) = Some wt) by (apply (Hc (g, (n, wt))); now left).
    assert (Hw : is_weight_name n = true) by (apply (proj2 Hwn (g, (n, wt))); now left).
    rewrite for_each_cons.
    pose proof (update_entry_step eta alpha g n wt w) as Hs.
    destruct (update_entry eta alpha (g, (n, wt)) w) as [w1 r]. simpl in Hs.
    assert (r = Ok tt) as ->.
    { eapply entry_step_ok; eauto. intros g0 E. apply (Hg (g, (n, wt)) g0); [now left | exact E]. }
    apply IH.
    + eapply well_named_tail; eauto.
    + eapply current_tail; eauto.
    + eapply entry_step_paired; eauto.
    + intros p g0 Hin. apply Hg. now right.
Qed.

Lemma current_update (self : MemoryModule F) (tr : list event)
  (grads : list (option (tensor F))) :
  NoDup (keys (_buffers self)) ->
  current (combine grads (get_named_weights self)) (mkWorld self tr).
Proof.
  intros Hnd [g [n t]] Hin. apply in_combine_r in Hin.
  now apply named_weight_lookup.
Qed.

Lemma skipped_combine (grads : list (option (tensor F))) (ws : list (string * tensor F)) :
  length grads = length ws ->
  skipped (combine grads ws)
  = map (fun _ => Warning skip_message) (filter is_none grads).
Proof.
  unfold skipped. revert ws.
  induction grads as [|g gs IH]; intros [|p ws] Hlen; simpl in *; try discriminate.
  - reflexivity.
  - injection Hlen as Hlen. specialize (IH ws Hlen).
    destruct g; simpl; [exact IH | now rewrite IH].
Qed.

Lemma In_in_combine {A B : Type} (l : list A) (l' : list B) (a : A) (b : B) :
  In (a, b) (combine l l') ->
  exists i, nth_error l i = Some a /\ nth_error l' i = Some b.
Proof.
  revert l'. induction l as [|x l IH]; intros [|y l'] Hin; simpl in Hin; try tauto.
  destruct Hin as [[= -> ->] | Hin].
  - exists 0. split; reflexivity.
  - destruct (IH _ Hin) as (i & H1 & H2). exists (S i). split; assumption.
Qed.

(** C4.  On a store that satisfies the pairing invariant, a call of [update]
    with as many gradients as weights, where the provided ones can be
    broadcast against their weight and entry [i] is the no-gradient marker,
    completes without an exception; the weight and the surprise buffer of
    entry [i] are what they were; one warning per marker is logged; and every
    entry whose gradient is provided holds the values of the recurrence. *)
Theorem update_skips_missing_gradient
  (self : MemoryModule F) (tr : list event) (grads : list (option (tensor F)))
  (eta alpha : F) (i : nat) (name : string) (weight_old : tensor F) :
  paired self ->
  length grads = length (get_named_weights self) ->
  (forall j n wt g,
     nth_error (get_named_weights self) j = Some (n, wt) ->
     nth_error grads j = Some (Some g) ->
     broadcast_shapes (shape wt) (shape g) <> None) ->
  nth_error (get_named_weights self) i = Some (name, weight_old) ->
  nth_error grads i = Some None ->
  exists w',
    update grads eta alpha (mkWorld self tr) = (w', Ok tt)
    /\ lookup name (buf w') = Some weight_old
    /\ lookup (_get_corresponding_surprise_name name) (buf w')
       = lookup (_get_corresponding_surprise_name name) (_buffers self)
    /\ trace w' = tr ++ UpdateCall :: map (fun _ => Warning skip_message) (filter is_none grads)
    /\ In (Warning skip_message) (trace w')
    /\ forall j n wt g,
         nth_error (get_named_weights self) j = Some (n, wt) ->
         nth_error grads j = Some (Some g) ->
         exists surprise_old surprise_new weight_new,
           lookup (_get_corresponding_surprise_name n) (_buffers self) = Some surprise_old
           /\ tadd (smul eta surprise_old) (smul (lr self) g) = Ok surprise_new
           /\ tadd (smul (Fsub Fone alpha) wt) surprise_new = Ok weight_new
           /\ lookup (_get_corresponding_surprise_name n) (buf w') = Some surprise_new
           /\ lookup n (buf w') = Some weight_new.
Proof.
  intros Hp Hlen Hbc Hw Hg.
  pose proof (proj1 Hp) as Hnd.
  pose proof (well_named_update self grads Hnd) as Hwn.
  destruct (loop_ok eta alpha (combine grads (get_named_weights self))
              (mkWorld self (tr ++ [UpdateCall])) Hwn
              (current_update self _ grads Hnd) Hp) as [w' Hrun].
  { intros [g0 [n wt]] g Hin E. simpl in E. subst g0.
    destruct (In_in_combine _ _ _ _ Hin) as (j & Hj1 & Hj2). simpl.
    now apply (Hbc j n wt g). }
  assert (Htr : trace w' = tr ++ UpdateCall
                  :: map (fun _ => Warning skip_message) (filter is_none grads)).
  { rewrite (loop_trace _ _ _ _ _ Hrun), (skipped_combine _ _ Hlen). simpl.
    now rewrite <- app_assoc. }
  exists w'. repeat split.
  - rewrite update_run. simpl. now rewrite Hlen, Nat.eqb_refl.
  - pose proof (nth_error_In _ _ (nth_error_combine _ _ _ _ _ Hg Hw)) as Hin.
    pose proof (loop_spec _ _ _ _ _ _ Hrun Hwn Hin) as R.
    unfold entry_result, entry_name, buf in R. simpl in R. unfold buf.
    rewrite (proj2 R). apply named_weight_lookup; [exact Hnd|].
    now apply (nth_error_In _ i).
  - pose proof (nth_error_In _ _ (nth_error_combine _ _ _ _ _ Hg Hw)) as Hin.
    pose proof (loop_spec _ _ _ _ _ _ Hrun Hwn Hin) as R.
    exact (proj1 R).
  - exact Htr.
  - rewrite Htr. apply in_or_app. right. right.
    apply (in_map (fun _ => Warning skip_message) _ None).
    apply filter_In. split; [now apply (nth_error_In _ i) | reflexivity].
  - intros j n wt g Hjw Hjg.
    pose proof (nth_error_In _ _ (nth_error_combine _ _ _ _ _ Hjg Hjw)) as Hin.
    exact (loop_spec _ _ _ _ _ _ Hrun Hwn Hin).
Qed.

(** ** Construction *)

(** The registry [_construct_layers] builds. *)
Definition constructed (layers : list (string * tensor F)) (b : buffers F) : buffers F :=
  fold_left (fun b p => assign (_get_corresponding_surprise_name (fst p)) (zeros_like (snd p))
                          (assign (fst p) (snd p) b))
            layers b.

Lemma construct_layers_run (layers : list (string * tensor F)) (w : World) :
  _construct_layers layers w
  = (mkWorld (set_buffers (obj w) (constructed layers (buf w))) (trace w), Ok tt).
Proof.
  unfold _construct_layers. revert w.
  induction layers as [|[n t] layers IH]; intros [[l i o b] tr].
  - reflexivity.
  - rewrite for_each_cons. unfold bind at 1, register_buffer, modify. simpl.
    rewrite IH. reflexivity.
Qed.

(** Just after construction every surprise buffer is the zero tensor of its
    weight. *)
Definition zero_paired (b : buffers F) : Prop :=
  NoDup (keys b)
  /\ forall name wt, lookup name b = Some wt -> is_weight_name name = true ->
       lookup (_get_corresponding_surprise_name name) b = Some (zeros_like wt).

Lemma zero_paired_register (n : string) (t : tensor F) (b : buffers F) :
  is_weight_name n = true -> zero_paired b ->
  zero_paired (assign (_get_corresponding_surprise_name n) (zeros_like t) (assign n t b)).
Proof.
  intros Hw [Hnd Hz]. split; [now repeat apply NoDup_assign|].
  set (sn := _get_corresponding_surprise_name n).
  assert (Hsn : sn <> n) by (now apply weight_name_not_surprise).
  intros k wt Hk Hkw.
  assert (Hks : k <> sn).
  { intros ->. unfold sn in Hkw. rewrite surprise_name_not_weight in Hkw. discriminate. }
  rewrite lookup_assign_neq in Hk by exact Hks.
  destruct (String.eqb_spec k n) as [-> | Hkn].
  - rewrite lookup_assign_eq in Hk. injection Hk as <-. apply lookup_assign_eq.
  - rewrite lookup_assign_neq in Hk by exact Hkn.
    rewrite !lookup_assign_neq.
    + now apply Hz.
    + now apply weight_name_not_surprise.
    + intros E. apply Hkn. now apply surprise_name_inj.
Qed.

Lemma zero_paired_constructed (layers : list (string * tensor F)) (b : buffers F) :
  (forall p, In p layers -> is_weight_name (fst p) = true) ->
  zero_paired b -> zero_paired (constructed layers b).
Proof.
  revert b. induction layers as [|[n t] layers IH]; intros b Hw Hz; [exact Hz|].
  simpl. apply IH.
  - intros p Hp. apply Hw. now right.
  - apply zero_paired_register; [|exact Hz]. apply (Hw (n, t)). now left.
Qed.

Lemma zero_paired_paired (self : MemoryModule F) :
  zero_paired (_buffers self) -> paired self.
Proof.
  intros [Hnd Hz]. split; [exact Hnd|].
  intros name wt Hl Hw. exists (zeros_like wt). split; [now apply Hz | reflexivity].
Qed.

Lemma keys_assign_incl (n k : string) (t : tensor F) (b : buffers F) :
  In k (keys b) -> In k (keys (assign n t b)).
Proof.
  intros Hin. rewrite keys_assign. destruct (existsb (String.eqb n) (keys b)); [exact Hin|].
  apply in_or_app. now left.
Qed.

Lemma keys_assign_self (n : string) (t : tensor F) (b : buffers F) :
  In n (keys (assign n t b)).
Proof. apply lookup_Some_key with t. apply lookup_assign_eq. Qed.

Lemma keys_constructed_incl (layers : list (string * tensor F)) (b : buffers F) (k : string) :
  In k (keys b) -> In k (keys (constructed layers b)).
Proof.
  revert b. induction layers as [|[n t] layers IH]; intros b Hin; [exact Hin|].
  simpl. apply IH. now repeat apply keys_assign_incl.
Qed.

Lemma keys_constructed (layers : list (string * tensor F)) (b : buffers F) (k : string) :
  In k (map fst layers) -> In k (keys (constructed layers b)).
Proof.
  revert b. induction layers as [|[n t] layers IH]; intros b Hin; [destruct Hin|].
  simpl in *. destruct Hin as [<- | Hin].
  - apply keys_constructed_incl. apply keys_assign_incl. apply keys_assign_self.
  - now apply IH.
Qed.

(** [LinearMemory]-style construction of a store from the layers of a
    variant, followed by any calls of [update]. *)
Inductive reachable (layers : list (string * tensor F)) : MemoryModule F -> Prop :=
| reach_init (lr_ : F) (din dout : Z) :
    reachable layers
      (obj (fst (_construct_layers layers (mkWorld (mkMemoryModule lr_ din dout []) []))))
| reach_update (self : MemoryModule F) (tr : list event)
    (grads : list (option (tensor F))) (eta alpha : F) :
    reachable layers self ->
    reachable layers (obj (fst (update grads eta alpha (mkWorld self tr)))).

Lemma update_paired (self : MemoryModule F) (tr : list event)
  (grads : list (option (tensor F))) (eta alpha : F) :
  paired self -> paired (obj (fst (update grads eta alpha (mkWorld self tr)))).
Proof.
  intros Hp. rewrite update_run. simpl.
  destruct (length grads =? length (get_named_weights self)); [|exact Hp].
  destruct (for_each _ _ _) as [w' r] eqn:Hrun. simpl.
  apply (loop_paired _ _ _ _ _ _ Hrun).
  - apply well_named_update, Hp.
  - apply current_update, Hp.
  - exact Hp.
Qed.

Lemma update_keys (self : MemoryModule F) (tr : list event)
  (grads : list (option (tensor F))) (eta alpha : F) :
  keys (_buffers (obj (fst (update grads eta alpha (mkWorld self tr))))) = keys (_buffers self).
Proof.
  rewrite update_run. simpl.
  destruct (length grads =? length (get_named_weights self)); [|reflexivity].
  destruct (for_each _ _ _) as [w' r] eqn:Hrun. simpl.
  apply (loop_keys _ _ _ _ _ _ Hrun).
  intros [g [n t]] Hin. apply in_combine_r in Hin. unfold entry_name, buf. simpl.
  unfold get_named_weights in Hin. apply filter_In in Hin. destruct Hin as [Hin _].
  apply (in_map fst) in Hin. exact Hin.
Qed.

Lemma reachable_paired (layers : list (string * tensor F)) (self : MemoryModule F) :
  (forall p, In p layers -> is_weight_name (fst p) = true) ->
  reachable layers self -> paired self.
Proof.
  intros Hw Hr. induction Hr as [lr_ din dout | self tr grads eta alpha Hr IH].
  - rewrite construct_layers_run. simpl. apply zero_paired_paired. simpl.
    apply zero_paired_constructed; [exact Hw|]. split; [constructor | discriminate].
  - now apply update_paired.
Qed.

Lemma reachable_keys (layers : list (string * tensor F)) (self : MemoryModule F) (k : string) :
  reachable layers self -> In k (map fst layers) -> In k (keys (_buffers self)).
Proof.
  intros Hr Hin. induction Hr as [lr_ din dout | self tr grads eta alpha Hr IH].
  - rewrite construct_layers_run. simpl. now apply keys_constructed.
  - now rewrite update_keys.
Qed.

Lemma weight_names_keys (self : MemoryModule F) (k : string) :
  In k (map fst (get_named_weights self)) <-> In k (keys (_buffers self)) /\ is_weight_name k = true.
Proof.
  unfold get_named_weights, named_buffers. rewrite weight_names. apply filter_In.
Qed.

(** C6.  For a store built by [_construct_layers] from layers whose names do
    not carry the surprise marker, and after any sequence of calls of
    [update] (completed or not): every layer is a current weight; every
    current weight [W] has exactly one surprise buffer, registered under
    [W] followed by the fixed suffix, of the shape of the weight; at
    construction that buffer is the zero tensor of the weight; and
    [get_named_weights] lists no surprise buffer. *)
Theorem surprise_pairing_invariant (layers : list (string * tensor F)) :
  (forall p, In p layers -> is_weight_name (fst p) = true) ->
  (forall lr_ din dout W wt,
     let self := obj (fst (_construct_layers layers
                             (mkWorld (mkMemoryModule lr_ din dout []) []))) in
     In (W, wt) (get_named_weights self) ->
     lookup (_get_corresponding_surprise_name W) (_buffers self) = Some (zeros_like wt))
  /\ forall self, reachable layers self ->
       (forall W, In W (map fst layers) -> In W (map fst (get_named_weights self)))
       /\ (forall W wt, In (W, wt) (get_named_weights self) ->
             exists s,
               lookup (_get_corresponding_surprise_name W) (_buffers self) = Some s
               /\ shape s = shape wt
               /\ count_occ string_dec (keys (_buffers self))
                    (_get_corresponding_surprise_name W) = 1
               /\ _get_corresponding_surprise_name W = String.append W "_surprise_tpast"
               /\ _get_corresponding_surprise_name W <> W)
       /\ (forall W, ~ In (_get_corresponding_surprise_name W)
                       (map fst (get_named_weights self))).
Proof.
  intros Hw. split.
  - intros lr_ din dout W wt self Hin. subst self.
    rewrite construct_layers_run in *. simpl in *.
    assert (Z0 : zero_paired (constructed layers [])).
    { apply zero_paired_constructed; [exact Hw|]. split; [constructor | discriminate]. }
    apply (proj2 Z0).
    + apply (named_weight_lookup (mkMemoryModule lr_ din dout (constructed layers [])));
        [exact (proj1 Z0) | exact Hin].
    + eapply named_weight_is_weight; eauto.
  - intros self Hr. pose proof (reachable_paired _ _ Hw Hr) as [Hnd Hp].
    split; [|split].
    + intros W HW. apply weight_names_keys. split.
      * eapply reachable_keys; eauto.
      * apply in_map_iff in HW. destruct HW as (p & <- & Hin). now apply Hw.
    + intros W wt Hin.
      pose proof (named_weight_is_weight _ _ _ Hin) as HWw.
      destruct (Hp W wt (named_weight_lookup _ _ _ Hnd Hin) HWw) as (s & Hs & Hsh).
      exists s. repeat split; auto.
      * apply NoDup_count_occ'; [exact Hnd | now apply lookup_Some_key with s].
      * now apply weight_name_not_surprise.
    + intros W Hin. apply weight_names_keys in Hin. destruct Hin as [_ Hin].
      rewrite surprise_name_not_weight in Hin. discriminate.
Qed.

End UpdateLoop.

(** ** LinearMemory.forward *)

Section Forward.
Context {F : Type} `{Scalar F}.

Lemma nth_rows (n : nat) (f : nat -> nat -> F) (m s i j : nat) (d : F) :
  i < m -> j < n ->
  nth (i * n + j) (flat_map (fun i => map (f i) (seq 0 n)) (seq s m)) d = f (s + i) j.
Proof.
  revert s i. induction m as [|m IH]; intros s i Hi Hj; [lia|].
  simpl. destruct i as [|i].
  - rewrite app_nth1 by (rewrite length_map, length_seq; exact Hj).
    rewrite Nat.add_0_r. simpl.
    rewrite (nth_indep _ d (f s 0)) by (rewrite length_map, length_seq; exact Hj).
    rewrite (map_nth (f s)), seq_nth by exact Hj. reflexivity.
  - rewrite app_nth2 by (rewrite length_map, length_seq; simpl; lia).
    rewrite length_map, length_seq.
    replace (S i * n + j - n) with (i * n + j) by (simpl; lia).
    rewrite IH by lia. f_equal. lia.
Qed.

Lemma entry_tabulate2 (m n : nat) (f : nat -> nat -> F) (i j : nat) :
  i < m -> j < n -> entry (tabulate2 m n f) n i j = f i j.
Proof. intros Hi Hj. unfold entry, tabulate2. now rewrite nth_rows. Qed.

Lemma tabulate2_ext (m n : nat) (f g : nat -> nat -> F) :
  (forall i j, i < m -> j < n -> f i j = g i j) -> tabulate2 m n f = tabulate2 m n g.
Proof.
  intros E. unfold tabulate2. rewrite !flat_map_concat_map. f_equal.
  apply map_ext_in. intros i Hi. apply in_seq in Hi.
  apply map_ext_in. intros j Hj. apply in_seq in Hj. apply E; lia.
Qed.

Lemma dot_ext (k : nat) (a a' b b' : nat -> F) :
  (forall l, l < k -> Fmul (a l) (b l) = Fmul (a' l) (b' l)) -> dot k a b = dot k a' b'.
Proof.
  intros E. unfold dot. f_equal. apply map_ext_in. intros l Hl.
  apply in_seq in Hl. apply E. lia.
Qed.

(** C10.  [LinearMemory.forward] on an input whose number of dimensions is
    not 2 (the chunks of a batch-by-sequence-by-feature input have 3) ends
    in the RuntimeError of [permute(1,0)] and returns no tensor. *)
Theorem forward_requires_2d (self : MemoryModule F) (tr : list event)
  (x model : tensor F) :
  lookup "model" (_buffers self) = Some model ->
  ndim x <> 2 ->
  permute10 x = Err RuntimeError
  /\ LinearMemory_forward x (mkWorld self tr) = (mkWorld self tr, Err RuntimeError).
Proof.
  intros Hm Hd.
  assert (P : permute10 x = Err RuntimeError).
  { unfold permute10, ndim in *. destruct (shape x) as [|a [|b [|c s]]]; try reflexivity.
    simpl in Hd. lia. }
  split; [exact P|].
  unfold LinearMemory_forward, bind, get_buffer, lift. simpl.
  now rewrite Hm, P.
Qed.

(** C7.  On a batch [x] of [B] rows of width [dim_in], with the weight
    matrix [model] of shape [(dim_out, dim_in)], [LinearMemory.forward]
    returns the [B] rows of width [dim_out] of [x @ model^T]: entry
    [(b, o)] is the dot product of row [b] of [x] and row [o] of [model],
    with no bias and no nonlinearity; the store is not changed. *)
Theorem forward_is_matmul_transpose (self : MemoryModule F) (tr : list event)
  (x model : tensor F) (B din dout : nat) :
  (forall a b : F, Fmul a b = Fmul b a) ->
  lookup "model" (_buffers self) = Some model ->
  shape model = [dout; din] ->
  shape x = [B; din] ->
  exists model_t y,
    permute10 model = Ok model_t
    /\ matmul x model_t = Ok y
    /\ LinearMemory_forward x (mkWorld self tr) = (mkWorld self tr, Ok y)
    /\ shape y = [B; dout]
    /\ forall b o, b < B -> o < dout ->
         entry (data y) dout b o = dot din (entry (data x) din b) (entry (data model) din o).
Proof.
  intros Hcomm Hm Hsm Hsx.
  set (model_t := {| shape := [din; dout];
                     data := tabulate2 din dout (fun j i => entry (data model) din i j) |}).
  set (y := {| shape := [B; dout];
               data := tabulate2 B dout (fun i j =>
                 dot din (entry (data x) din i) (fun l => entry (data model_t) dout l j)) |}).
  assert (Emt : forall l o, l < din -> o < dout ->
                  entry (data model_t) dout l o = entry (data model) din o l).
  { intros l o Hl Ho. unfold model_t. simpl. now rewrite entry_tabulate2. }
  exists model_t, y. split; [|split; [|split; [|split]]].
  - unfold permute10. now rewrite Hsm.
  - unfold matmul. rewrite Hsx. simpl. rewrite Nat.eqb_refl.
    unfold y. simpl. now rewrite Nat.add_0_r.
  - set (xt := {| shape := [din; B];
                  data := tabulate2 din B (fun j i => entry (data x) din i j) |}).
    set (y1 := {| shape := [dout; B];
                  data := tabulate2 dout B (fun i j =>
                    dot din (entry (data model) din i) (fun l => entry (data xt) B l j)) |}).
    assert (Px : permute10 x = Ok xt) by (unfold permute10; now rewrite Hsx).
    assert (Pm : matmul model xt = Ok y1).
    { unfold matmul. rewrite Hsm. simpl. now rewrite Nat.eqb_refl, Nat.add_0_r. }
    unfold LinearMemory_forward, bind, get_buffer, lift. simpl.
    rewrite Hm, Px, Pm. unfold permute10. simpl. do 2 f_equal. unfold y. f_equal.
    apply tabulate2_ext. intros b o Hb Ho.
    rewrite entry_tabulate2 by assumption.
    apply dot_ext. intros l Hl.
    rewrite entry_tabulate2, Emt by assumption. apply Hcomm.
  - reflexivity.
  - intros b o Hb Ho. unfold y. simpl. rewrite entry_tabulate2 by assumption.
    apply dot_ext. intros l Hl. now rewrite Emt.
Qed.

End Forward.

(** ** The orchestrator *)

Section Unit.
Context {F : Type} `{Scalar F} `{Runtime F}.

Local Abbreviation NMWorld := (world (NeuralMemory F)).

Lemma LinearMemory_forward_pure (x : tensor F) (w : world (MemoryModule F)) :
  fst (LinearMemory_forward x w) = w.
Proof.
  unfold LinearMemory_forward, bind, get_buffer, lift.
  destruct (lookup "model" (_buffers (obj w))); [|reflexivity].
  destruct (permute10 x) as [xt|]; [|reflexivity].
  destruct (matmul t xt); reflexivity.
Qed.

Lemma on_memory_pure {A : Type} (m : Mem A) (w : NMWorld) :
  fst (m (mkWorld (memory (obj w)) (trace w))) = mkWorld (memory (obj w)) (trace w) ->
  fst (on_memory m w) = w.
Proof.
  unfold on_memory. destruct (m _) as [w' r]. simpl. intros ->.
  destruct w as [[c mem k v q] tr]. reflexivity.
Qed.

Lemma on_memory_result {A : Type} (m : Mem A) (w : NMWorld) :
  snd (on_memory m w) = snd (m (mkWorld (memory (obj w)) (trace w))).
Proof. unfold on_memory. now destruct (m _). Qed.

(** C8.  [NeuralMemory.forward] leaves the unit, its memory store and the
    trace as they were; with [query] true it returns what
    [LinearMemory.forward] returns on the query projection of [x] (or the
    exception of the projection), with [query] false what it returns on [x]
    itself. *)
Theorem forward_is_pure_read (w : NMWorld) (x : tensor F) (query_flag : bool) :
  fst (forward x query_flag w) = w
  /\ snd (forward x query_flag w)
     = if query_flag
       then match Linear_forward (query (obj w)) x with
            | Ok x' => snd (LinearMemory_forward x' (mkWorld (memory (obj w)) (trace w)))
            | Err e => Err e
            end
       else snd (LinearMemory_forward x (mkWorld (memory (obj w)) (trace w))).
Proof.
  unfold forward, bind. destruct query_flag.
  - unfold gets, lift. simpl.
    destruct (Linear_forward (query (obj w)) x) as [x'|e]; [|split; reflexivity].
    split; [apply on_memory_pure, LinearMemory_forward_pure | apply on_memory_result].
  - unfold ret.
    split; [apply on_memory_pure, LinearMemory_forward_pure | apply on_memory_result].
Qed.

(** *** Construction *)

Lemma torch_empty_negative (a b : Z) :
  (a <? 0)%Z || (b <? 0)%Z = true -> torch_empty [a; b] = Err RuntimeError.
Proof.
  simpl. destruct (a <? 0)%Z; [reflexivity|]. simpl. now intros ->.
Qed.

(** C9, as the code has it.  Construction never looks at
    [update_chunk_size]: with any value, non-positive ones included, it ends
    as it does with the value 1, in the same exception or in the same unit
    holding the given value instead; and a negative [dim_in] or [dim_out]
    makes it fail with the RuntimeError of the tensor allocation. *)
Theorem construction_ignores_chunk_size (dim_in dim_out update_chunk_size : Z) (lr_ : F) :
  match NeuralMemory_init dim_in dim_out 1 lr_ with
  | Ok nm => NeuralMemory_init dim_in dim_out update_chunk_size lr_
             = Ok (mkNeuralMemory update_chunk_size (memory nm) (key nm) (value nm) (query nm))
  | Err e => NeuralMemory_init dim_in dim_out update_chunk_size lr_ = Err e
  end
  /\ if (dim_out <? 0)%Z || (dim_in <? 0)%Z
     then NeuralMemory_init dim_in dim_out update_chunk_size lr_ = Err RuntimeError
     else True.
Proof.
  split.
  - unfold NeuralMemory_init.
    destruct (LinearMemory_init dim_in dim_out lr_); [|reflexivity].
    destruct (Linear_init "key" dim_in dim_in); [|reflexivity].
    destruct (Linear_init "value" dim_in dim_in); [|reflexivity].
    destruct (Linear_init "query" dim_in dim_in); reflexivity.
  - destruct ((dim_out <? 0)%Z || (dim_in <? 0)%Z) eqn:E; [|exact I].
    unfold NeuralMemory_init, LinearMemory_init, construct_layers.
    now rewrite (torch_empty_negative _ _ E).
Qed.

(** A negative chunk size surfaces in [condition], at the split. *)
Lemma condition_negative_chunk_size (w : NMWorld) (x : tensor F) :
  (update_chunk_size (obj w) < 0)%Z -> condition x w = (w, Err RuntimeError).
Proof.
  intros Hc. apply Z.ltb_lt in Hc.
  unfold condition, bind, gets, lift, split1. simpl. rewrite Hc.
  destruct (shape x) as [|a [|b s]]; reflexivity.
Qed.

(** *** Conditioning on an input that is not 2-dimensional *)

Lemma split1_chunks (x : tensor F) (c : Z) (chunks : list (tensor F)) :
  split1 x c = Ok chunks ->
  chunks <> [] /\ forall ch, In ch chunks -> ndim ch = ndim x.
Proof.
  unfold split1, ndim. destruct (shape x) as [|d0 [|L rest]]; try discriminate.
  - destruct (c <? 0)%Z; discriminate.
  - destruct (c <? 0)%Z; [discriminate|].
    destruct (c =? 0)%Z.
    + destruct (L =? 0); [|discriminate]. intros [= <-]. split; [discriminate|].
      intros ch [<- | []]. reflexivity.
    + intros [= <-]. split.
      * unfold num_splits.
        destruct (Nat.max ((L + Z.to_nat c - 1) / Z.to_nat c) 1) eqn:E; [lia | discriminate].
      * intros ch Hin. apply in_map_iff in Hin. destruct Hin as (i & <- & _). reflexivity.
Qed.

Lemma Linear_forward_ndim (l : Linear F) (x y : tensor F) :
  Linear_forward l x = Ok y -> ndim y = ndim x.
Proof.
  unfold Linear_forward, ndim.
  destruct (shape (weight l)) as [|out [|inp [|? ?]]]; try discriminate;
    try (destruct (rev (shape x)); discriminate).
  destruct (rev (shape x)) as [|d rlead] eqn:E; [discriminate|].
  destruct (d =? inp); [|discriminate]. intros [= <-]. simpl.
  rewrite <- (length_rev (shape x)), E, length_app, length_rev. simpl. lia.
Qed.

Lemma LinearMemory_forward_not_2d (x : tensor F) (w : world (MemoryModule F)) :
  ndim x <> 2 -> exists e, LinearMemory_forward x w = (w, Err e).
Proof.
  intros Hd. unfold LinearMemory_forward, bind, get_buffer, lift.
  destruct (lookup "model" (_buffers (obj w))) as [model|] eqn:Hm.
  - exists RuntimeError.
    assert (P : permute10 x = Err RuntimeError).
    { unfold permute10, ndim in *. destruct (shape x) as [|a [|b [|c s]]]; try reflexivity.
      simpl in Hd. lia. }
    now rewrite P.
  - exists AttributeError. reflexivity.
Qed.

(** The first chunk of a list of chunks that are not 2-dimensional ends the
    loop, before the gradient and the update. *)
Lemma condition_loop_not_2d (x : tensor F) (chunks : list (tensor F)) (total : F)
  (w : NMWorld) :
  ndim x <> 2 -> exists e, condition_loop (x :: chunks) total w = (w, Err e).
Proof.
  intros Hd. simpl. unfold bind at 1. unfold gets at 1.
  unfold bind at 1. unfold lift at 1.
  destruct (Linear_forward (key (obj w)) x) as [k|e] eqn:Ek; [|now exists e].
  unfold bind at 1. unfold gets at 1.
  unfold bind at 1. unfold lift at 1.
  destruct (Linear_forward (value (obj w)) x) as [v|e] eqn:Ev; [|now exists e].
  unfold bind at 1.
  assert (Hk : ndim k <> 2) by (rewrite (Linear_forward_ndim _ _ _ Ek); exact Hd).
  destruct (LinearMemory_forward_not_2d k (mkWorld (memory (obj w)) (trace w)) Hk) as [e E].
  unfold on_memory. rewrite E. exists e.
  destruct w as [[c mem ky vl q] tr]. reflexivity.
Qed.

(** With the [LinearMemory] of [model.py] as the memory, on an input that
    is not 2-dimensional, so on every batch-by-sequence-by-feature input,
    [condition] ends in an exception before any update: it returns no total,
    and the unit, its memory and the trace are as before the call. *)
Theorem condition_raises_unless_2d (w : NMWorld) (x : tensor F) :
  ndim x <> 2 -> exists e, condition x w = (w, Err e).
Proof.
  intros Hd. unfold condition. unfold bind at 1. unfold gets at 1.
  unfold bind at 1. unfold lift at 1.
  destruct (split1 x (update_chunk_size (obj w))) as [chunks|e] eqn:Es; [|now exists e].
  destruct (split1_chunks _ _ _ Es) as [Hne Hnd].
  destruct chunks as [|ch chunks]; [congruence|].
  apply condition_loop_not_2d. rewrite (Hnd ch) by (now left). exact Hd.
Qed.

(** *** Runs of [condition] that complete *)

Definition is_update_call (e : event) : bool :=
  match e with UpdateCall => true | Warning _ => false end.

(** Number of entries into [update] a trace records. *)
Definition update_calls (tr : list event) : nat := length (filter is_update_call tr).

Lemma update_calls_app (tr tr' : list event) :
  update_calls (tr ++ tr') = update_calls tr + update_calls tr'.
Proof. unfold update_calls. now rewrite filter_app, length_app. Qed.

Lemma update_calls_none (evs : list event) :
  ~ In UpdateCall evs -> update_calls evs = 0.
Proof.
  unfold update_calls. induction evs as [|[msg|] evs IH]; simpl; intros Hn.
  - reflexivity.
  - apply IH. tauto.
  - exfalso. apply Hn. now left.
Qed.

(** A call of [update] is one entry, whatever its outcome. *)
Lemma update_counts_once (grads : list (option (tensor F))) (eta alpha : F)
  (w : world (MemoryModule F)) :
  update_calls (trace (fst (update grads eta alpha w))) = S (update_calls (trace w)).
Proof.
  rewrite update_run. simpl.
  destruct (length grads =? length (get_named_weights (obj w))).
  - destruct (for_each _ _ _) as [w' r] eqn:Hrun. simpl.
    destruct (loop_no_update_mark _ _ _ _ _ _ Hrun) as (evs & E & Hn).
    rewrite E. simpl. rewrite !update_calls_app, (update_calls_none _ Hn).
    change (update_calls [UpdateCall]) with 1. lia.
  - simpl. rewrite update_calls_app. change (update_calls [UpdateCall]) with 1. lia.
Qed.

(** The body of the loop of [condition] for one chunk; it returns [s_t]. *)
Definition chunk_step (x : tensor F) : NM F :=
  k_ <- gets (fun w => key (obj w)) ;;
  k <- lift (Linear_forward k_ x) ;;
  v_ <- gets (fun w => value (obj w)) ;;
  v <- lift (Linear_forward v_ x) ;;
  pred <- on_memory (LinearMemory_forward k) ;;
  s_t <- lift (surprise_metric pred v) ;;
  m <- gets (fun w => memory (obj w)) ;;
  grads <- lift (autograd_grad (surprise_of m k v) (get_weights m)) ;;
  on_memory (update (map Some grads) (Flit (9 # 10)) (Flit (1 # 10))) ;;
  ret s_t.

Lemma condition_loop_cons (x : tensor F) (chunks : list (tensor F)) (total : F)
  (w : NMWorld) :
  condition_loop (x :: chunks) total w
  = match chunk_step x w with
    | (w1, Ok s_t) => condition_loop chunks (Fadd total s_t) w1
    | (w1, Err e) => (w1, Err e)
    end.
Proof.
  simpl. unfold chunk_step, bind, gets, lift, ret.
  destruct (Linear_forward (key (obj w)) x) as [k|]; [|reflexivity].
  destruct (Linear_forward (value (obj w)) x) as [v|]; [|reflexivity].
  destruct (on_memory (LinearMemory_forward k) w) as [w1 [pred|]]; [|reflexivity].
  destruct (surprise_metric pred v) as [s_t|]; [|reflexivity].
  destruct (autograd_grad _ _) as [grads|]; [|reflexivity].
  destruct (on_memory _ w1) as [w2 [[]|]]; reflexivity.
Qed.

Lemma chunk_step_counts_once (x : tensor F) (w w1 : NMWorld) (s_t : F) :
  chunk_step x w = (w1, Ok s_t) ->
  update_calls (trace w1) = S (update_calls (trace w)).
Proof.
  unfold chunk_step, bind, gets, lift, ret.
  destruct (Linear_forward (key (obj w)) x) as [k|]; [|discriminate].
  destruct (Linear_forward (value (obj w)) x) as [v|]; [|discriminate].
  pose proof (on_memory_pure (LinearMemory_forward k) w
                (LinearMemory_forward_pure k _)) as Hp.
  destruct (on_memory (LinearMemory_forward k) w) as [w0 [pred|]]; [|discriminate].
  simpl in Hp. subst w0.
  destruct (surprise_metric pred v) as [s|]; [|discriminate].
  destruct (autograd_grad _ _) as [grads|]; [|discriminate].
  unfold on_memory.
  pose proof (update_counts_once (map Some grads) (Flit (9 # 10)) (Flit (1 # 10))
                (mkWorld (memory (obj w)) (trace w))) as Hc.
  destruct (update _ _ _ _) as [wm [[]|]]; [|discriminate].
  intros [= <- _]. exact Hc.
Qed.

(** One call of [update] per chunk, in the order of the chunks. *)
Lemma condition_loop_counts (chunks : list (tensor F)) (total t : F) (w w' : NMWorld) :
  condition_loop chunks total w = (w', Ok t) ->
  update_calls (trace w') = update_calls (trace w) + length chunks.
Proof.
  revert total w. induction chunks as [|x chunks IH]; intros total w Hrun.
  - injection Hrun as <- _. simpl. lia.
  - rewrite condition_loop_cons in Hrun.
    destruct (chunk_step x w) as [w1 [s_t|]] eqn:Es; [|discriminate].
    rewrite (IH _ _ Hrun), (chunk_step_counts_once _ _ _ _ Es). simpl. lia.
Qed.

(** The total is the running sum of the per-chunk values, and it is not
    read by the loop: from another starting total the run ends in the same
    state. *)
Lemma condition_loop_total (chunks : list (tensor F)) (total t : F) (w w' : NMWorld) :
  condition_loop chunks total w = (w', Ok t) ->
  exists ss, length ss = length chunks
             /\ forall total', condition_loop chunks total' w
                               = (w', Ok (fold_left Fadd ss total')).
Proof.
  revert total w. induction chunks as [|x chunks IH]; intros total w Hrun.
  - injection Hrun as <- _. exists []. split; reflexivity.
  - rewrite condition_loop_cons in Hrun.
    destruct (chunk_step x w) as [w1 [s_t|]] eqn:Es; [|discriminate].
    destruct (IH _ _ Hrun) as (ss & Hlen & Hss).
    exists (s_t :: ss). split; [simpl; now rewrite Hlen|].
    intros total'. rewrite condition_loop_cons, Es. apply Hss.
Qed.

(** The pieces of a sequence axis of length [L >= 1] for a chunk size
    [c >= 1]: their number is the ceiling of [L/c]. *)
Lemma num_splits_ceiling (L c : nat) :
  1 <= L -> 1 <= c ->
  (num_splits L c - 1) * c < L <= num_splits L c * c.
Proof.
  intros HL Hc. unfold num_splits.
  pose proof (Nat.div_mod_eq (L + c - 1) c) as D.
  pose proof (Nat.mod_upper_bound (L + c - 1) c ltac:(lia)) as U.
  assert (1 <= (L + c - 1) / c) by (apply Nat.div_str_pos; lia).
  rewrite Nat.max_l by lia. nia.
Qed.

Lemma split1_count (x : tensor F) (c : Z) (d0 L : nat) (rest : list nat) :
  shape x = d0 :: L :: rest -> (0 < c)%Z ->
  exists chunks,
    split1 x c = Ok chunks
    /\ length chunks = num_splits L (Z.to_nat c)
    /\ forall i, i < num_splits L (Z.to_nat c) ->
         option_map shape (nth_error chunks i)
         = Some (d0 :: (if i <? num_splits L (Z.to_nat c) - 1 then Z.to_nat c
                        else L - Z.to_nat c * (num_splits L (Z.to_nat c) - 1)) :: rest).
Proof.
  intros Hs Hc. unfold split1. rewrite Hs.
  destruct (c <? 0)%Z eqn:E1; [apply Z.ltb_lt in E1; lia|].
  destruct (c =? 0)%Z eqn:E2; [apply Z.eqb_eq in E2; lia|].
  eexists. split; [reflexivity|]. split.
  - now rewrite length_map, length_seq.
  - intros i Hi. rewrite nth_error_map, nth_error_seq.
    apply Nat.ltb_lt in Hi. rewrite Hi. reflexivity.
Qed.

(** On the runs of [condition] that complete there is one call of [update]
    per chunk. *)
Lemma condition_counts (x : tensor F) (w w' : NMWorld) (t : F) (d0 L : nat)
  (rest : list nat) :
  shape x = d0 :: L :: rest -> (0 < update_chunk_size (obj w))%Z ->
  condition x w = (w', Ok t) ->
  update_calls (trace w')
  = update_calls (trace w) + num_splits L (Z.to_nat (update_chunk_size (obj w))).
Proof.
  intros Hs Hc. unfold condition, bind, gets, lift.
  destruct (split1_count x _ d0 L rest Hs Hc) as (chunks & -> & Hlen & _).
  intros Hrun. rewrite (condition_loop_counts _ _ _ _ _ Hrun). now rewrite Hlen.
Qed.

(** On the runs of [condition] that complete the value returned is the sum,
    from 0 and in the order of the chunks, of one value per chunk. *)
Lemma condition_total (x : tensor F) (w w' : NMWorld) (t : F) :
  condition x w = (w', Ok t) ->
  exists chunks ss,
    split1 x (update_chunk_size (obj w)) = Ok chunks
    /\ length ss = length chunks
    /\ t = fold_left Fadd ss Fzero.
Proof.
  unfold condition, bind, gets, lift.
  destruct (split1 x (update_chunk_size (obj w))) as [chunks|]; [|discriminate].
  intros Hrun. destruct (condition_loop_total _ _ _ _ _ Hrun) as (ss & Hlen & Hss).
  exists chunks, ss. repeat split; auto.
  specialize (Hss Fzero). rewrite Hrun in Hss. now injection Hss.
Qed.

End Unit.

(** * Runs on rational scalars *)

Module Demo.

Open Scope Q_scope.

Lemma Qmult_comm_eq (a b : Q) : Qmult a b = Qmult b a.
Proof.
  unfold Qmult. f_equal; [apply Z.mul_comm | apply Pos.mul_comm].
Qed.

(** A runtime to run the code with: gradients by forward differences of
    step 1, and fixed fills in place of the random ones. *)

Definition bump (j : nat) (d : list Q) : list Q :=
  map (fun p : nat * Q => if (fst p =? j)%nat then snd p + 1 else snd p)
      (combine (seq 0 (length d)) d).

Definition perturb (ws : list (tensor Q)) (t j : nat) : list (tensor Q) :=
  map (fun p : nat * tensor Q =>
         if (fst p =? t)%nat
         then {| shape := shape (snd p); data := bump j (data (snd p)) |}
         else snd p)
      (combine (seq 0 (length ws)) ws).

Fixpoint all_ok {A : Type} (l : list (result A)) : result (list A) :=
  match l with
  | [] => Ok []
  | Err e :: _ => Err e
  | Ok a :: l' => match all_ok l' with Ok r => Ok (a :: r) | Err e => Err e end
  end.

Definition difference_grad (f : list (tensor Q) -> result Q) (ws : list (tensor Q))
  : result (list (tensor Q)) :=
  match f ws with
  | Err e => Err e
  | Ok base =>
      all_ok (map (fun p : nat * tensor Q =>
                match all_ok (map (fun j => match f (perturb ws (fst p) j) with
                                            | Ok v => Ok (Qred (v - base))
                                            | Err e => Err e
                                            end)
                                  (seq 0 (length (data (snd p))))) with
                | Ok d => Ok {| shape := shape (snd p); data := d |}
                | Err e => Err e
                end)
              (combine (seq 0 (length ws)) ws))
  end.

#[export] Instance demo_runtime : Runtime Q := {
  autograd_grad := difference_grad;
  xavier_normal_ := fun s => Ok (map (fun i => Z.of_nat i # 4) (seq 1 (numel s)));
  linear_reset_parameters := fun attr i o =>
    (map (fun n => Z.of_nat ((n + String.length attr) mod 3) # 2) (seq 0 (o * i)),
     repeat (1 # 3) o)
}.

(** A store with two weights, built as [_construct_layers] builds it. *)
Definition two_layers : list (string * tensor Q) :=
  [("model", {| shape := [2; 2]%nat; data := [1; 2; 3; 4] |});
   ("gate", {| shape := [2]%nat; data := [5; 6] |})].

Definition two_store : MemoryModule Q :=
  obj (fst (_construct_layers two_layers (mkWorld (mkMemoryModule (1 # 10) 2 2 []) []))).

Definition g_model : tensor Q := {| shape := [2; 2]%nat; data := [1; -1; 2; 0] |}.

Lemma two_store_buffers :
  _buffers two_store
  = [("model", {| shape := [2; 2]%nat; data := [1; 2; 3; 4] |});
     ("model_surprise_tpast", {| shape := [2; 2]%nat; data := [0; 0; 0; 0] |});
     ("gate", {| shape := [2]%nat; data := [5; 6] |});
     ("gate_surprise_tpast", {| shape := [2]%nat; data := [0; 0] |})].
Proof. reflexivity. Qed.

(** The marker is looked for anywhere in a name: a layer whose name
    contains it is registered, with its surprise buffer, and is not listed
    as a weight. *)
Lemma marker_is_a_substring :
  is_weight_name "surprise_gate" = false
  /\ get_named_weights
       (obj (fst (_construct_layers [("surprise_gate", {| shape := [1]%nat; data := [1] |})]
                    (mkWorld (mkMemoryModule (1 # 10) 1 1 []) []))))
     = [].
Proof. split; reflexivity. Qed.

Lemma two_layers_named : forall p, In p two_layers -> is_weight_name (fst p) = true.
Proof. intros p [<- | [<- | []]]; reflexivity. Qed.

Lemma two_store_reachable : reachable two_layers two_store.
Proof. apply reach_init. Qed.

Lemma two_store_paired : paired two_store.
Proof. exact (reachable_paired _ _ two_layers_named two_store_reachable). Defined.

Definition w_model : tensor Q := {| shape := [2; 2]%nat; data := [1; 2; 3; 4] |}.

Definition both_grads : list (option (tensor Q)) :=
  [Some g_model; Some {| shape := [2]%nat; data := [1; 1] |}].

Definition after_both : world (MemoryModule Q) :=
  fst (update both_grads (9 # 10) (1 # 10) (mkWorld two_store [])).

(** C1 at [two_store]: both gradients provided. *)
Lemma update_applies_recurrence_witness :
  exists surprise_new weight_new,
    tadd (smul (9 # 10) (zeros_like w_model)) (smul (lr two_store) g_model) = Ok surprise_new
    /\ tadd (smul (Fsub Fone (1 # 10)) w_model) surprise_new = Ok weight_new
    /\ lookup (_get_corresponding_surprise_name "model") (buf after_both) = Some surprise_new
    /\ lookup "model" (buf after_both) = Some weight_new.
Proof.
  refine (update_applies_recurrence two_store [] both_grads (9 # 10) (1 # 10) after_both
            0 "model" w_model (zeros_like w_model) g_model _ _ _ _ _).
  - repeat (constructor; [simpl; intuition discriminate|]). constructor.
  - vm_compute. reflexivity.
  - reflexivity.
  - reflexivity.
  - reflexivity.
Defined.

Definition w_gate : tensor Q := {| shape := [2]%nat; data := [5; 6] |}.

Definition one_missing : list (option (tensor Q)) := [Some g_model; None].

(** C4 at [two_store]: the gradient of "gate" is the marker. *)
Lemma update_skips_missing_gradient_witness :
  exists w',
    update one_missing (9 # 10) (1 # 10) (mkWorld two_store []) = (w', Ok tt)
    /\ lookup "gate" (buf w') = Some w_gate
    /\ lookup (_get_corresponding_surprise_name "gate") (buf w')
       = lookup (_get_corresponding_surprise_name "gate") (_buffers two_store)
    /\ trace w' = [] ++ UpdateCall
                    :: map (fun _ => Warning skip_message) (filter is_none one_missing)
    /\ In (Warning skip_message) (trace w')
    /\ forall j n wt g,
         nth_error (get_named_weights two_store) j = Some (n, wt) ->
         nth_error one_missing j = Some (Some g) ->
         exists surprise_old surprise_new weight_new,
           lookup (_get_corresponding_surprise_name n) (_buffers two_store) = Some surprise_old
           /\ tadd (smul (9 # 10) surprise_old) (smul (lr two_store) g) = Ok surprise_new
           /\ tadd (smul (Fsub Fone (1 # 10)) wt) surprise_new = Ok weight_new
           /\ lookup (_get_corresponding_surprise_name n) (buf w') = Some surprise_new
           /\ lookup n (buf w') = Some weight_new.
Proof.
  refine (update_skips_missing_gradient two_store [] one_missing (9 # 10) (1 # 10)
            1 "gate" w_gate two_store_paired _ _ _ _).
  - reflexivity.
  - intros [|[|j]] n wt g Hw Hg; simpl in Hw, Hg; try discriminate.
    + injection Hw as <- <-. injection Hg as <-. vm_compute. discriminate.
    + destruct j; discriminate.
  - reflexivity.
  - reflexivity.
Defined.

(** C6 at [two_store], and after an update of it. *)
Lemma surprise_pairing_invariant_witness :
  lookup (_get_corresponding_surprise_name "gate") (_buffers two_store)
  = Some (zeros_like w_gate)
  /\ (forall W, In W (map fst two_layers) ->
                In W (map fst (get_named_weights (obj after_both))))
  /\ (forall W wt, In (W, wt) (get_named_weights (obj after_both)) ->
        exists s,
          lookup (_get_corresponding_surprise_name W) (_buffers (obj after_both)) = Some s
          /\ shape s = shape wt
          /\ count_occ string_dec (keys (_buffers (obj after_both)))
               (_get_corresponding_surprise_name W) = 1%nat
          /\ _get_corresponding_surprise_name W = String.append W "_surprise_tpast"
          /\ _get_corresponding_surprise_name W <> W)
  /\ (forall W, ~ In (_get_corresponding_surprise_name W)
                  (map fst (get_named_weights (obj after_both)))).
Proof.
  destruct (surprise_pairing_invariant two_layers two_layers_named) as [Hz Hr].
  split.
  - apply (Hz (1 # 10) 2%Z 2%Z "gate" w_gate). right. left. reflexivity.
  - apply (Hr (obj after_both)).
    exact (reach_update two_layers two_store [] both_grads (9 # 10) (1 # 10)
             two_store_reachable).
Defined.

Definition x_batch : tensor Q := {| shape := [3; 2]%nat; data := [1; 0; 0; 1; 2; 3] |}.

(** C7 at [two_store]: a batch of 3 rows. *)
Lemma forward_is_matmul_transpose_witness :
  exists model_t y,
    permute10 w_model = Ok model_t
    /\ matmul x_batch model_t = Ok y
    /\ LinearMemory_forward x_batch (mkWorld two_store []) = (mkWorld two_store [], Ok y)
    /\ shape y = [3; 2]%nat
    /\ forall b o, (b < 3)%nat -> (o < 2)%nat ->
         entry (data y) 2 b o = dot 2 (entry (data x_batch) 2 b) (entry (data w_model) 2 o).
Proof.
  exact (forward_is_matmul_transpose two_store [] x_batch w_model 3 2 2
           Qmult_comm_eq eq_refl eq_refl eq_refl).
Defined.

Lemma forward_batch_value :
  snd (LinearMemory_forward x_batch (mkWorld two_store []))
  = Ok {| shape := [3; 2]%nat;
          data := map Qred [1; 3; 2; 4; 8; 18] |}.
Proof.
  vm_compute. reflexivity.
Qed.

(** A chunk of a batch-by-sequence-by-feature input. *)
Definition x_chunk : tensor Q := {| shape := [1; 2; 2]%nat; data := [1; 2; 3; 4] |}.

(** C10 at [two_store]. *)
Lemma forward_requires_2d_witness :
  permute10 x_chunk = Err RuntimeError
  /\ LinearMemory_forward x_chunk (mkWorld two_store []) = (mkWorld two_store [], Err RuntimeError).
Proof.
  refine (forward_requires_2d two_store [] x_chunk w_model eq_refl _).
  simpl. discriminate.
Defined.

(** The unit a constructor call returned (a unit without buffers when it
    raised). *)
Definition unit_of (r : result (NeuralMemory Q)) : NeuralMemory Q :=
  match r with
  | Ok nm => nm
  | Err _ =>
      let none := {| shape := []; data := [] |} in
      mkNeuralMemory 0 (mkMemoryModule 0 0 0 []) (mkLinear none none)
        (mkLinear none none) (mkLinear none none)
  end.

(** The scenario of the specification: [dim_in = dim_out = 4],
    [update_chunk_size = 2], one sequence of length 5. *)
Definition scenario_unit : NeuralMemory Q := unit_of (NeuralMemory_init 4 4 2 default_lr).

Definition scenario_input : tensor Q :=
  {| shape := [1; 5; 4]%nat;
     data := map (fun i => Z.of_nat i # 1) (seq 1 20) |}.

(** With the [LinearMemory] of [model.py] as the memory, at the scenario:
    the split makes the three chunks of lengths 2, 2 and 1, and [condition]
    ends in the RuntimeError of [permute(1,0)] on the first of them: no call
    of [update] is made and the memory is what it was. *)
Theorem condition_scenario_makes_no_update :
  NeuralMemory_init 4 4 2 default_lr = Ok scenario_unit
  /\ (exists chunks, split1 scenario_input 2 = Ok chunks
                     /\ map shape chunks = [[1; 2; 4]; [1; 2; 4]; [1; 1; 4]]%nat
                     /\ concat (map data chunks) = data scenario_input)
  /\ num_splits 5 2 = 3%nat
  /\ condition scenario_input (mkWorld scenario_unit [])
     = (mkWorld scenario_unit [], Err RuntimeError)
  /\ update_calls (trace (fst (condition scenario_input (mkWorld scenario_unit [])))) = 0%nat.
Proof.
  split; [reflexivity|]. split; [|split; [reflexivity|split]].
  - eexists. split; [reflexivity|]. split; reflexivity.
  - vm_compute. reflexivity.
  - vm_compute. reflexivity.
Qed.

(** That memory at the scenario: no total is returned. *)
Lemma condition_raises_unless_2d_witness :
  exists e, condition scenario_input (mkWorld scenario_unit []) = (mkWorld scenario_unit [], Err e).
Proof.
  refine (condition_raises_unless_2d (mkWorld scenario_unit []) scenario_input _).
  simpl. discriminate.
Defined.

(** C9 does not hold of the code: a unit is constructed with chunk size 0. *)
Lemma construction_accepts_zero_chunk_size :
  exists nm, NeuralMemory_init 4 4 0 default_lr = Ok nm /\ update_chunk_size nm = 0%Z.
Proof.
  eexists. split; [vm_compute; reflexivity | reflexivity].
Qed.

Lemma construction_ignores_chunk_size_witness :
  NeuralMemory_init 4 4 (-3) default_lr
  = Ok (mkNeuralMemory (-3) (memory scenario_unit) (key scenario_unit)
          (value scenario_unit) (query scenario_unit))
  /\ NeuralMemory_init (-4) 4 2 default_lr = Err RuntimeError.
Proof.
  split.
  - pose proof (proj1 (construction_ignores_chunk_size 4 4 (-3) default_lr)) as P.
    vm_compute in P. vm_compute. exact P.
  - exact (proj2 (construction_ignores_chunk_size (-4) 4 2 default_lr)).
Defined.

(** A run that completes: a 2-dimensional input whose second axis is two
    chunks of the width the projections take. *)
Definition flat_unit : NeuralMemory Q := unit_of (NeuralMemory_init 2 2 2 default_lr).

Definition flat_input : tensor Q := {| shape := [2; 4]%nat; data := [1; 2; 3; 4; 5; 6; 7; 8] |}.

Lemma condition_flat_input_updates_twice :
  exists total, snd (condition flat_input (mkWorld flat_unit [])) = Ok total
  /\ trace (fst (condition flat_input (mkWorld flat_unit []))) = [UpdateCall; UpdateCall].
Proof.
  eexists. split; vm_compute; reflexivity.
Qed.

End Demo.

(** * Further properties of the memory store *)

Section Store.
Context {F : Type} `{Scalar F}.

(** X1.  Surprise names never collide: two weights have the same surprise
    name only if they have the same name; a surprise name carries the
    marker, so [get_named_weights] never takes it for a weight; and a
    surprise name differs from the name it is made from. *)
Theorem surprise_names_never_collide (a b : string) :
  (_get_corresponding_surprise_name a = _get_corresponding_surprise_name b <-> a = b)
  /\ is_weight_name (_get_corresponding_surprise_name a) = false
  /\ _get_corresponding_surprise_name a <> a.
Proof.
  split; [|split].
  - split; [apply surprise_name_inj | now intros ->].
  - apply surprise_name_not_weight.
  - intros E. apply (f_equal String.length) in E.
    unfold _get_corresponding_surprise_name in E. rewrite length_append in E.
    simpl in E. lia.
Qed.

(** An iteration of the loop replaces buffers and nothing else of the
    module. *)
Lemma entry_step_module eta alpha grad name wt (w w1 : world (MemoryModule F)) r :
  entry_step eta alpha grad name wt w w1 r ->
  obj w1 = set_buffers (obj w) (buf w1).
Proof.
  intros Hs. destruct w as [[l i o b] tr]. destruct Hs; reflexivity.
Qed.

Lemma loop_module (eta alpha : F) l (w w' : world (MemoryModule F)) r :
  for_each l (update_entry eta alpha) w = (w', r) ->
  obj w' = set_buffers (obj w) (buf w').
Proof.
  revert w. induction l as [|[g [n wt]] l IH]; intros w Hrun.
  - injection Hrun as <- _. now destruct w as [[l i o b] tr].
  - rewrite for_each_cons in Hrun.
    pose proof (update_entry_step eta alpha g n wt w) as Hs.
    destruct (update_entry eta alpha (g, (n, wt)) w) as [w1 [[]|e]]; simpl in Hs.
    + rewrite (IH _ Hrun), (entry_step_module _ _ _ _ _ _ _ _ Hs). reflexivity.
    + injection Hrun as <- _. eapply entry_step_module; eauto.
Qed.

(** X3.  Whatever its outcome, a call of [update] changes nothing of the
    store but the values of its weights and of their surprise buffers: the
    learning rate, the dimensions, the names of the buffers and their order
    stay, and so does every buffer that is neither a listed weight nor the
    surprise buffer of one. *)
Theorem update_touches_only_pairs (self : MemoryModule F) (tr : list event)
  (grads : list (option (tensor F))) (eta alpha : F) :
  let self' := obj (fst (update grads eta alpha (mkWorld self tr))) in
  lr self' = lr self
  /\ dim_in self' = dim_in self
  /\ dim_out self' = dim_out self
  /\ map fst (named_buffers self') = map fst (named_buffers self)
  /\ forall k,
       (forall n t, In (n, t) (get_named_weights self) ->
                    k <> n /\ k <> _get_corresponding_surprise_name n) ->
       lookup k (_buffers self') = lookup k (_buffers self).
Proof.
  intros self'.
  assert (K : keys (_buffers self') = keys (_buffers self)) by apply update_keys.
  assert (Hm : obj (fst (update grads eta alpha (mkWorld self tr)))
               = set_buffers self (_buffers self')
          /\ forall k,
               (forall n t, In (n, t) (get_named_weights self) ->
                            k <> n /\ k <> _get_corresponding_surprise_name n) ->
               lookup k (_buffers self') = lookup k (_buffers self)).
  { subst self'. rewrite update_run. simpl.
    destruct (length grads =? length (get_named_weights self)).
    - destruct (for_each _ _ _) as [w' r] eqn:Hrun. simpl. split.
      + exact (loop_module _ _ _ _ _ _ Hrun).
      + intros k Hk. apply (loop_frame _ _ _ _ _ _ k Hrun).
        intros [g [n t]] Hin. apply in_combine_r in Hin. now apply (Hk n t).
    - simpl. split; [now destruct self | reflexivity]. }
  destruct Hm as [Hobj Hframe]. fold self' in Hobj.
  repeat split; try (rewrite Hobj; reflexivity); assumption.
Qed.

Lemma broadcast_refl (s : list nat) : broadcast_shapes s s = Some s.
Proof.
  unfold broadcast_shapes. rewrite bc_rev_refl. simpl. now rewrite rev_involutive.
Qed.

Lemma nth_error_combine_inv {A B : Type} (l : list A) (l' : list B) (i : nat) (a : A) (b : B) :
  nth_error (combine l l') i = Some (a, b) ->
  nth_error l i = Some a /\ nth_error l' i = Some b.
Proof.
  revert l l'. induction i as [|i IH]; intros [|x l] [|y l']; simpl; try discriminate.
  - intros [= -> ->]. split; reflexivity.
  - apply IH.
Qed.

Lemma named_weight_has_gradient (self : MemoryModule F) (grads : list (option (tensor F)))
  (n : string) (wt : tensor F) :
  length grads = length (get_named_weights self) ->
  In (n, wt) (get_named_weights self) ->
  exists j og, nth_error (get_named_weights self) j = Some (n, wt)
               /\ nth_error grads j = Some og
               /\ In (og, (n, wt)) (combine grads (get_named_weights self)).
Proof.
  intros Hlen Hin. destruct (In_nth_error _ _ Hin) as [j Hj].
  assert (Hlt : j < length grads).
  { rewrite Hlen. apply nth_error_Some. congruence. }
  destruct (nth_error grads j) as [og|] eqn:Hg.
  - exists j, og. repeat split; auto.
    apply (nth_error_In _ j). now apply nth_error_combine.
  - apply nth_error_None in Hg. lia.
Qed.

Lemma update_same_shapes (self : MemoryModule F) (tr : list event)
  (grads : list (option (tensor F))) (eta alpha : F) :
  paired self ->
  length grads = length (get_named_weights self) ->
  (forall j n wt g,
     nth_error (get_named_weights self) j = Some (n, wt) ->
     nth_error grads j = Some (Some g) ->
     shape g = shape wt) ->
  exists w',
    update grads eta alpha (mkWorld self tr) = (w', Ok tt)
    /\ paired (obj w')
    /\ map fst (get_named_weights (obj w')) = map fst (get_named_weights self)
    /\ forall n wt, In (n, wt) (get_named_weights self) ->
         exists wt' s',
           lookup n (buf w') = Some wt' /\ shape wt' = shape wt
           /\ lookup (_get_corresponding_surprise_name n) (buf w') = Some s'
           /\ shape s' = shape wt.
Proof.
  intros Hp Hlen Hsh.
  pose proof (proj1 Hp) as Hnd.
  pose proof (well_named_update self grads Hnd) as Hwn.
  destruct (loop_ok eta alpha (combine grads (get_named_weights self))
              (mkWorld self (tr ++ [UpdateCall])) Hwn
              (current_update self _ grads Hnd) Hp) as [w' Hrun].
  { intros [g0 [n wt]] g Hin E. simpl in E. subst g0.
    destruct (In_in_combine _ _ _ _ Hin) as (j & Hj1 & Hj2). simpl.
    rewrite (Hsh j n wt g Hj2 Hj1), broadcast_refl. discriminate. }
  assert (Hupd : update grads eta alpha (mkWorld self tr) = (w', Ok tt)).
  { rewrite update_run. simpl. now rewrite Hlen, Nat.eqb_refl. }
  exists w'. split; [exact Hupd|]. split; [|split].
  - pose proof (update_paired self tr grads eta alpha Hp) as P. now rewrite Hupd in P.
  - pose proof (update_keys self tr grads eta alpha) as K. rewrite Hupd in K. simpl in K.
    unfold get_named_weights, named_buffers. rewrite !weight_names. now rewrite K.
  - intros n wt Hin.
    pose proof (named_weight_lookup _ _ _ Hnd Hin) as Hl.
    pose proof (named_weight_is_weight _ _ _ Hin) as Hw.
    destruct (proj2 Hp n wt Hl Hw) as (s & Hs & Hss).
    destruct (named_weight_has_gradient self grads n wt Hlen Hin) as (j & og & Hj & Hg & Hc).
    pose proof (loop_spec _ _ _ _ _ _ Hrun Hwn Hc) as R.
    unfold entry_result, entry_name, buf in R. simpl in R. unfold buf.
    destruct og as [g|].
    + destruct R as (past & surp & wnew & Hpast & E1 & E2 & L1 & L2).
      rewrite Hs in Hpast. injection Hpast as <-.
      apply tzip_shape in E1. simpl in E1.
      rewrite Hss, (Hsh j n wt g Hj Hg), broadcast_refl in E1. injection E1 as E1.
      apply tzip_shape in E2. simpl in E2.
      rewrite <- E1, broadcast_refl in E2. injection E2 as E2.
      exists wnew, surp. repeat split; auto; congruence.
    + destruct R as [R1 R2]. exists wt, s. rewrite R1, R2. auto.
Qed.

(** X4.  Gradients of the shape of their weights, as the autodiff engine
    returns them, keep the store in shape: on a store that satisfies the
    pairing invariant the call completes, the weights are listed under the
    same names in the same order, and every weight and every surprise
    buffer has the shape it had. *)
Theorem update_keeps_shapes (self : MemoryModule F) (tr : list event)
  (grads : list (option (tensor F))) (eta alpha : F) :
  paired self ->
  length grads = length (get_named_weights self) ->
  (forall j n wt g,
     nth_error (get_named_weights self) j = Some (n, wt) ->
     nth_error grads j = Some (Some g) ->
     shape g = shape wt) ->
  exists w',
    update grads eta alpha (mkWorld self tr) = (w', Ok tt)
    /\ paired (obj w')
    /\ map fst (get_named_weights (obj w')) = map fst (get_named_weights self)
    /\ forall n wt, In (n, wt) (get_named_weights self) ->
         exists wt' s',
           lookup n (buf w') = Some wt' /\ shape wt' = shape wt
           /\ lookup (_get_corresponding_surprise_name n) (buf w') = Some s'
           /\ shape s' = shape wt.
Proof. apply update_same_shapes. Qed.

(** X5.  The surprise buffer is looked up before the gradient is tested:
    when the first listed weight has no surprise buffer, a call with the
    right number of gradients raises AttributeError and leaves the store as
    it was, also when the gradient of that weight is the no-gradient
    marker. *)
Theorem update_needs_the_surprise_buffer (self : MemoryModule F) (tr : list event)
  (grads : list (option (tensor F))) (eta alpha : F) (n : string) (wt : tensor F)
  (rest : list (string * tensor F)) :
  get_named_weights self = (n, wt) :: rest ->
  lookup (_get_corresponding_surprise_name n) (_buffers self) = None ->
  length grads = length (get_named_weights self) ->
  update grads eta alpha (mkWorld self tr)
  = (mkWorld self (tr ++ [UpdateCall]), Err AttributeError).
Proof.
  intros Hws Hl Hlen. rewrite update_run. simpl. rewrite Hlen, Nat.eqb_refl, Hws.
  rewrite Hws in Hlen. destruct grads as [|g gs]; [discriminate|].
  cbn [combine]. rewrite for_each_cons.
  unfold update_entry, bind, get_buffer. simpl. now rewrite Hl.
Qed.

(** X6.  A store built from the single layer of LinearMemory holds, after
    any sequence of calls of [update], exactly two buffers: the weight
    "model", which is the only weight [get_named_weights] lists, and its
    surprise buffer, of the shape of the weight. *)
Theorem linear_memory_has_one_weight (w0 : tensor F) (self : MemoryModule F) :
  reachable [("model", w0)] self ->
  exists w s,
    named_buffers self = [("model", w); ("model_surprise_tpast", s)]
    /\ get_named_weights self = [("model", w)]
    /\ shape s = shape w.
Proof.
  intros Hr.
  assert (K : keys (_buffers self) = ["model"; "model_surprise_tpast"]).
  { induction Hr as [lr_ din dout | self tr grads eta alpha Hr IH].
    - rewrite construct_layers_run. reflexivity.
    - now rewrite update_keys. }
  assert (Hp : paired self).
  { apply (reachable_paired [("model", w0)]); [|exact Hr].
    intros p [<- | []]. reflexivity. }
  unfold named_buffers, get_named_weights, named_buffers.
  destruct (_buffers self) as [|[k1 w] [|[k2 s] [|? ?]]] eqn:Eb; try discriminate.
  simpl in K. injection K as -> ->.
  exists w, s. repeat split.
  destruct (proj2 Hp "model" w) as (s' & Hs & Hsh).
  - rewrite Eb. reflexivity.
  - reflexivity.
  - rewrite Eb in Hs. simpl in Hs. injection Hs as <-. exact Hsh.
Qed.

(** X7.  [LinearMemory.forward] on a batch whose rows do not have the width
    [dim_in] of the weight matrix raises RuntimeError, at the product, and
    leaves the store as it was. *)
Theorem forward_rejects_wrong_width (self : MemoryModule F) (tr : list event)
  (x model : tensor F) (B d din dout : nat) :
  lookup "model" (_buffers self) = Some model ->
  shape model = [dout; din] ->
  shape x = [B; d] ->
  d <> din ->
  LinearMemory_forward x (mkWorld self tr) = (mkWorld self tr, Err RuntimeError).
Proof.
  intros Hm Hsm Hsx Hd.
  unfold LinearMemory_forward, bind, get_buffer, lift. simpl. rewrite Hm.
  unfold permute10. rewrite Hsx. unfold matmul. rewrite Hsm. simpl.
  destruct (din =? d) eqn:E; [|reflexivity].
  apply Nat.eqb_eq in E. congruence.
Qed.

Lemma for_each_app {S A : Type} (l1 l2 : list A) (body : A -> M S unit) (s : S) :
  for_each (l1 ++ l2) body s
  = match for_each l1 body s with
    | (s1, Ok _) => for_each l2 body s1
    | (s1, Err e) => (s1, Err e)
    end.
Proof.
  revert s. induction l1 as [|a l1 IH]; intros s; [reflexivity|].
  simpl app. rewrite !for_each_cons. destruct (body a s) as [s1 [[]|e]]; [apply IH | reflexivity].
Qed.

Lemma well_named_app_l (l1 l2 : list (option (tensor F) * (string * tensor F))) :
  well_named (l1 ++ l2) -> well_named l1.
Proof.
  intros [Hnd Hw]. split.
  - rewrite map_app in Hnd. now apply NoDup_app_remove_r in Hnd.
  - intros p Hp. apply Hw, in_or_app. now left.
Qed.

Lemma well_named_app_r (l1 l2 : list (option (tensor F) * (string * tensor F))) :
  well_named (l1 ++ l2) -> well_named l2.
Proof.
  intros [Hnd Hw]. split.
  - rewrite map_app in Hnd. now apply NoDup_app_remove_l in Hnd.
  - intros p Hp. apply Hw, in_or_app. now right.
Qed.

(** No buffer of an entry of the second part is touched by the first part. *)
Lemma well_named_app_apart (l1 l2 : list (option (tensor F) * (string * tensor F))) p q :
  well_named (l1 ++ l2) -> In p l1 -> In q l2 ->
  (entry_name q <> entry_name p
   /\ entry_name q <> _get_corresponding_surprise_name (entry_name p))
  /\ (_get_corresponding_surprise_name (entry_name q) <> entry_name p
      /\ _get_corresponding_surprise_name (entry_name q)
         <> _get_corresponding_surprise_name (entry_name p)).
Proof.
  intros [Hnd Hw] Hp Hq.
  assert (Hne : entry_name q <> entry_name p).
  { rewrite map_app in Hnd. intros E.
    induction l1 as [|a l1 IH]; [destruct Hp|].
    simpl in Hnd. inversion Hnd as [|? ? Hnotin Hnd']; subst.
    destruct Hp as [-> | Hp].
    - apply Hnotin. apply in_or_app. right. rewrite <- E. now apply in_map.
    - apply IH; auto. intros r Hr. apply Hw. simpl. right. exact Hr. }
  repeat split.
  - exact Hne.
  - intros E. symmetry in E. revert E. apply weight_name_not_surprise.
    apply Hw, in_or_app. now right.
  - apply weight_name_not_surprise. apply Hw, in_or_app. now left.
  - intros E. apply Hne. now apply surprise_name_inj.
Qed.

(** X8.  A gradient that cannot be broadcast against its weight is found
    only when its turn comes: on a store that satisfies the pairing
    invariant, with as many gradients as weights, if gradient [j] is the
    first that does not fit, the call raises RuntimeError after it has
    written the surprise and the weight of every entry before [j] whose
    gradient is provided; entry [j] and the entries after it are what they
    were. *)
Theorem update_stops_at_bad_gradient (self : MemoryModule F) (tr : list event)
  (grads : list (option (tensor F))) (eta alpha : F)
  (j : nat) (n : string) (wt g : tensor F) :
  paired self ->
  length grads = length (get_named_weights self) ->
  nth_error (get_named_weights self) j = Some (n, wt) ->
  nth_error grads j = Some (Some g) ->
  broadcast_shapes (shape wt) (shape g) = None ->
  (forall i ni wi gi, i < j ->
     nth_error (get_named_weights self) i = Some (ni, wi) ->
     nth_error grads i = Some (Some gi) ->
     broadcast_shapes (shape wi) (shape gi) <> None) ->
  exists w',
    update grads eta alpha (mkWorld self tr) = (w', Err RuntimeError)
    /\ (forall i ni wi gi, i < j ->
          nth_error (get_named_weights self) i = Some (ni, wi) ->
          nth_error grads i = Some (Some gi) ->
          exists surprise_old surprise_new weight_new,
            lookup (_get_corresponding_surprise_name ni) (_buffers self) = Some surprise_old
            /\ tadd (smul eta surprise_old) (smul (lr self) gi) = Ok surprise_new
            /\ tadd (smul (Fsub Fone alpha) wi) surprise_new = Ok weight_new
            /\ lookup (_get_corresponding_surprise_name ni) (buf w') = Some surprise_new
            /\ lookup ni (buf w') = Some weight_new)
    /\ (forall i ni wi, j <= i ->
          nth_error (get_named_weights self) i = Some (ni, wi) ->
          lookup ni (buf w') = Some wi
          /\ lookup (_get_corresponding_surprise_name ni) (buf w')
             = lookup (_get_corresponding_surprise_name ni) (_buffers self)).
Proof.
  intros Hp Hlen Hw Hg Hbad Hgood.
  pose proof (proj1 Hp) as Hnd.
  set (ws := get_named_weights self) in *.
  set (w0 := mkWorld self (tr ++ [UpdateCall])).
  pose proof (well_named_update self grads Hnd) as Hwn. fold ws in Hwn.
  pose proof (current_update self (tr ++ [UpdateCall]) grads Hnd) as Hcur.
  fold ws in Hcur. fold w0 in Hcur.
  destruct (nth_error_split _ _ (nth_error_combine _ _ _ _ _ Hg Hw)) as (l1 & l2 & El & Hl1).
  rewrite El in Hwn, Hcur.
  assert (Hidx : forall p, In p l1 ->
            exists i, i < j /\ nth_error grads i = Some (fst p)
                      /\ nth_error ws i = Some (snd p)).
  { intros [gp [np wp]] Hin. destruct (In_nth_error _ _ Hin) as [i Hi].
    assert (Hlt : i < j) by (rewrite <- Hl1; apply nth_error_Some; congruence).
    exists i. split; [exact Hlt|].
    apply nth_error_combine_inv. rewrite El, nth_error_app1 by lia. exact Hi. }
  (* the entries before [j] complete *)
  destruct (loop_ok eta alpha l1 w0 (well_named_app_l _ _ Hwn)) as [w1 Hrun1]; [| exact Hp | |].
  { intros p Hin. apply Hcur, in_or_app. now left. }
  { intros [gp [np wp]] gi Hin E. simpl in E. subst gp.
    destruct (Hidx _ Hin) as (i & Hlt & Hgi & Hwi). simpl in *.
    exact (Hgood i np wp gi Hlt Hwi Hgi). }
  (* their buffers apart, the registry is as it was *)
  assert (Hfr : forall q, In q ((Some g, (n, wt)) :: l2) ->
            lookup (entry_name q) (buf w1) = lookup (entry_name q) (buf w0)
            /\ lookup (_get_corresponding_surprise_name (entry_name q)) (buf w1)
               = lookup (_get_corresponding_surprise_name (entry_name q)) (buf w0)).
  { intros q Hq. split; apply (loop_frame _ _ _ _ _ _ _ Hrun1); intros p Hp1;
      apply (well_named_app_apart _ _ p q Hwn Hp1 Hq). }
  (* entry [j] raises and writes nothing *)
  assert (Hstep : update_entry eta alpha (Some g, (n, wt)) w1 = (w1, Err RuntimeError)).
  { pose proof (update_entry_step eta alpha (Some g) n wt w1) as Hs.
    destruct (Hfr (Some g, (n, wt)) (or_introl eq_refl)) as [Fn Fs].
    unfold entry_name in Fn, Fs. simpl in Fn, Fs.
    assert (Hln : lookup n (_buffers self) = Some wt).
    { apply named_weight_lookup; [exact Hnd|]. now apply (nth_error_In _ j). }
    assert (Hwt : is_weight_name n = true).
    { apply (named_weight_is_weight self n wt). now apply (nth_error_In _ j). }
    destruct (proj2 Hp n wt Hln Hwt) as (s & Hs0 & Hsh).
    assert (Hbad1 : forall lr_, surprise_t lr_ eta s g = Err RuntimeError).
    { intros lr_. unfold surprise_t, tadd, tzip. simpl. now rewrite Hsh, Hbad. }
    destruct (update_entry eta alpha (Some g, (n, wt)) w1) as [w2 r]. simpl in Hs.
    inversion Hs as [El0|past El0 Eg|past g0 El0 Eg E1|past g0 surp El0 Eg E1 E2
                     |past g0 surp wnew El0 Eg E1 E2]; subst; try discriminate.
    - rewrite Fs in El0. unfold buf, w0 in El0. simpl in El0. congruence.
    - reflexivity.
    - rewrite Fs in El0. unfold buf, w0 in El0. simpl in El0.
      rewrite Hs0 in El0. injection El0 as <-. injection Eg as <-.
      rewrite Hbad1 in E1. discriminate.
    - rewrite Fs in El0. unfold buf, w0 in El0. simpl in El0.
      rewrite Hs0 in El0. injection El0 as <-. injection Eg as <-.
      rewrite Hbad1 in E1. discriminate. }
  exists w1. split; [|split].
  - rewrite update_run. simpl. fold ws. rewrite Hlen, Nat.eqb_refl.
    fold w0. rewrite El, for_each_app, Hrun1, for_each_cons, Hstep. reflexivity.
  - intros i ni wi gi Hlt Hwi Hgi.
    assert (Hin : In (Some gi, (ni, wi)) l1).
    { apply (nth_error_In _ i). rewrite <- (nth_error_app1 l1 ((Some g, (n, wt)) :: l2)) by lia.
      rewrite <- El. now apply nth_error_combine. }
    exact (loop_spec _ _ _ _ _ _ Hrun1 (well_named_app_l _ _ Hwn) Hin).
  - intros i ni wi Hle Hwi.
    assert (Hgi : exists og, nth_error grads i = Some og).
    { destruct (nth_error grads i) as [og|] eqn:E; [now exists og|].
      apply nth_error_None in E.
      assert (i < length ws) by (apply nth_error_Some; congruence). lia. }
    destruct Hgi as [og Hgi].
    assert (Hin : In (og, (ni, wi)) ((Some g, (n, wt)) :: l2)).
    { apply (nth_error_In _ (i - j)).
      rewrite <- Hl1, <- (nth_error_app2 l1) by lia.
      rewrite <- El. now apply nth_error_combine. }
    destruct (Hfr _ Hin) as [Fn Fs]. unfold entry_name in Fn, Fs. simpl in Fn, Fs.
    rewrite Fn, Fs. split; [|reflexivity].
    apply named_weight_lookup; [exact Hnd|]. now apply (nth_error_In _ i).
Qed.

End Store.

(** * Further properties of the orchestrator *)

Section Conditioning.
Context {F : Type} `{Scalar F} `{Runtime F}.

Local Abbreviation NMWorld := (world (NeuralMemory F)).

Lemma update_module (self : MemoryModule F) (tr : list event)
  (grads : list (option (tensor F))) (eta alpha : F) :
  obj (fst (update grads eta alpha (mkWorld self tr)))
  = set_buffers self (_buffers (obj (fst (update grads eta alpha (mkWorld self tr))))).
Proof.
  rewrite update_run. simpl.
  destruct (length grads =? length (get_named_weights self)).
  - destruct (for_each _ _ _) as [w' r] eqn:Hrun. simpl.
    exact (loop_module _ _ _ _ _ _ Hrun).
  - simpl. now destruct self.
Qed.

(** What [condition] can change of a unit: the values of the buffers of its
    memory, and the trace. *)
Definition same_unit (w w' : NMWorld) : Prop :=
  update_chunk_size (obj w') = update_chunk_size (obj w)
  /\ key (obj w') = key (obj w)
  /\ value (obj w') = value (obj w)
  /\ query (obj w') = query (obj w)
  /\ lr (memory (obj w')) = lr (memory (obj w))
  /\ dim_in (memory (obj w')) = dim_in (memory (obj w))
  /\ dim_out (memory (obj w')) = dim_out (memory (obj w))
  /\ map fst (named_buffers (memory (obj w'))) = map fst (named_buffers (memory (obj w))).

Lemma same_unit_refl (w : NMWorld) : same_unit w w.
Proof. repeat split. Qed.

Lemma same_unit_trans (w1 w2 w3 : NMWorld) :
  same_unit w1 w2 -> same_unit w2 w3 -> same_unit w1 w3.
Proof.
  unfold same_unit. intros (A1 & A2 & A3 & A4 & A5 & A6 & A7 & A8)
                           (B1 & B2 & B3 & B4 & B5 & B6 & B7 & B8).
  repeat split; congruence.
Qed.

(** A chunk either leaves the state as it is, or ends in the state a call of
    [update] on the memory leaves. *)
Lemma chunk_step_state (x : tensor F) (w w1 : NMWorld) (r : result F) :
  chunk_step x w = (w1, r) ->
  w1 = w
  \/ exists grads,
       w1 = mkWorld (set_memory (obj w)
                       (obj (fst (update (map Some grads) (Flit (9 # 10)) (Flit (1 # 10))
                                    (mkWorld (memory (obj w)) (trace w))))))
                    (trace (fst (update (map Some grads) (Flit (9 # 10)) (Flit (1 # 10))
                                   (mkWorld (memory (obj w)) (trace w))))).
Proof.
  unfold chunk_step, bind, gets, lift, ret.
  destruct (Linear_forward (key (obj w)) x) as [k|]; [|intros [= <- _]; now left].
  destruct (Linear_forward (value (obj w)) x) as [v|]; [|intros [= <- _]; now left].
  pose proof (on_memory_pure (LinearMemory_forward k) w
                (LinearMemory_forward_pure k _)) as Hp.
  destruct (on_memory (LinearMemory_forward k) w) as [w0 [pred|]];
    simpl in Hp; subst w0; [|intros [= <- _]; now left].
  destruct (surprise_metric pred v) as [s|]; [|intros [= <- _]; now left].
  destruct (autograd_grad _ _) as [grads|]; [|intros [= <- _]; now left].
  unfold on_memory.
  destruct (update _ _ _ _) as [wm [[]|]] eqn:Eu; intros [= <- _]; right; exists grads;
    rewrite Eu; reflexivity.
Qed.

Lemma chunk_step_same_unit (x : tensor F) (w w1 : NMWorld) (r : result F) :
  chunk_step x w = (w1, r) -> same_unit w w1.
Proof.
  intros Hs. destruct (chunk_step_state _ _ _ _ Hs) as [-> | [grads ->]].
  - apply same_unit_refl.
  - unfold same_unit. simpl.
    rewrite update_module. repeat split.
    unfold named_buffers. simpl. apply update_keys.
Qed.

Lemma chunk_step_paired (x : tensor F) (w w1 : NMWorld) (r : result F) :
  chunk_step x w = (w1, r) -> paired (memory (obj w)) -> paired (memory (obj w1)).
Proof.
  intros Hs Hp. destruct (chunk_step_state _ _ _ _ Hs) as [-> | [grads ->]].
  - exact Hp.
  - simpl. now apply update_paired.
Qed.

Lemma condition_loop_invariant (P : NMWorld -> NMWorld -> Prop) :
  (forall w, P w w) ->
  (forall w1 w2 w3, P w1 w2 -> P w2 w3 -> P w1 w3) ->
  (forall x w w1 r, chunk_step x w = (w1, r) -> P w w1) ->
  forall chunks total w, P w (fst (condition_loop chunks total w)).
Proof.
  intros Hrefl Htrans Hstep chunks.
  induction chunks as [|x chunks IH]; intros total w.
  - apply Hrefl.
  - rewrite condition_loop_cons.
    destruct (chunk_step x w) as [w1 [s|e]] eqn:Es.
    + apply (Htrans _ w1); [eapply Hstep; eauto | apply IH].
    + simpl. eapply Hstep; eauto.
Qed.

(** X9.  Whatever its outcome, [condition] changes nothing of the unit but
    the values of the buffers of its memory: the chunk size, the three
    projections, the learning rate and the dimensions of the memory, and
    the names and the order of its buffers stay. *)
Theorem condition_touches_only_memory_values (x : tensor F) (w : NMWorld) :
  same_unit w (fst (condition x w)).
Proof.
  unfold condition, bind, gets, lift.
  destruct (split1 x (update_chunk_size (obj w))) as [chunks|e]; [|apply same_unit_refl].
  apply (condition_loop_invariant same_unit).
  - apply same_unit_refl.
  - apply same_unit_trans.
  - apply chunk_step_same_unit.
Qed.

(** X10.  [condition] keeps the pairing invariant of the memory, whether it
    completes or raises part of the way. *)
Theorem condition_keeps_pairing (x : tensor F) (w : NMWorld) :
  paired (memory (obj w)) -> paired (memory (obj (fst (condition x w)))).
Proof.
  unfold condition, bind, gets, lift.
  destruct (split1 x (update_chunk_size (obj w))) as [chunks|e]; [|auto].
  apply (condition_loop_invariant
           (fun w w' => paired (memory (obj w)) -> paired (memory (obj w')))).
  - auto.
  - auto.
  - apply chunk_step_paired.
Qed.

(** X11.  A run of [condition] that completes on an input whose sequence
    axis has length [L >= 1], with a chunk size [c >= 1], has made one call
    of [update] per chunk, and the number [n] of chunks is the ceiling of
    [L/c]: [(n-1)*c < L <= n*c]. *)
Theorem condition_one_update_per_chunk (x : tensor F) (w w' : NMWorld) (t : F)
  (d0 L : nat) (rest : list nat) :
  shape x = d0 :: L :: rest ->
  1 <= L ->
  (0 < update_chunk_size (obj w))%Z ->
  condition x w = (w', Ok t) ->
  let c := Z.to_nat (update_chunk_size (obj w)) in
  let n := num_splits L c in
  update_calls (trace w') = update_calls (trace w) + n
  /\ (n - 1) * c < L <= n * c.
Proof.
  intros Hs HL Hc Hrun c n. split.
  - exact (condition_counts x w w' t d0 L rest Hs Hc Hrun).
  - apply num_splits_ceiling; [exact HL | unfold c; lia].
Qed.

(** X12.  A chunk size that is not positive is found by [condition], at the
    split: on an input with a sequence axis of length [L >= 1] the call
    raises RuntimeError before it reads or writes anything of the memory. *)
Theorem condition_rejects_nonpositive_chunk_size (x : tensor F) (w : NMWorld)
  (d0 L : nat) (rest : list nat) :
  shape x = d0 :: L :: rest ->
  1 <= L ->
  (update_chunk_size (obj w) <= 0)%Z ->
  condition x w = (w, Err RuntimeError).
Proof.
  intros Hs HL Hc. unfold condition, bind, gets, lift, split1. simpl. rewrite Hs.
  destruct (update_chunk_size (obj w) <? 0)%Z eqn:E1; [reflexivity|].
  apply Z.ltb_ge in E1.
  assert (E2 : (update_chunk_size (obj w) =? 0)%Z = true) by (apply Z.eqb_eq; lia).
  rewrite E2. destruct L; [lia | reflexivity].
Qed.

(** *** What construction yields *)

Lemma torch_empty_2 (a b : Z) (s : list nat) :
  torch_empty [a; b] = Ok s -> (0 <= a)%Z /\ (0 <= b)%Z /\ s = [Z.to_nat a; Z.to_nat b].
Proof.
  simpl. destruct (a <? 0)%Z eqn:Ea; [discriminate|].
  destruct (b <? 0)%Z eqn:Eb; [discriminate|].
  intros [= <-]. apply Z.ltb_ge in Ea, Eb. auto.
Qed.

Lemma torch_empty_1 (a : Z) (s : list nat) :
  torch_empty [a] = Ok s -> s = [Z.to_nat a].
Proof. simpl. destruct (a <? 0)%Z; [discriminate|]. now intros [= <-]. Qed.

(** The memory a successful [LinearMemory(dim_in, dim_out, lr)] returns. *)
Definition fresh_memory (dim_in dim_out : Z) (lr_ : F) (fill : list F) : MemoryModule F :=
  let model := {| shape := [Z.to_nat dim_out; Z.to_nat dim_in]; data := fill |} in
  mkMemoryModule lr_ dim_in dim_out
    [("model", model); ("model_surprise_tpast", zeros_like model)].

(** The layer a successful [nn.Linear(n, n)] returns for an attribute. *)
Definition fresh_linear (attr : string) (n : Z) : Linear F :=
  mkLinear {| shape := [Z.to_nat n; Z.to_nat n];
              data := fst (linear_reset_parameters attr (Z.to_nat n) (Z.to_nat n)) |}
           {| shape := [Z.to_nat n];
              data := snd (linear_reset_parameters attr (Z.to_nat n) (Z.to_nat n)) |}.

Lemma LinearMemory_init_ok (dim_in dim_out : Z) (lr_ : F) (m : MemoryModule F) :
  LinearMemory_init dim_in dim_out lr_ = Ok m ->
  (0 <= dim_in)%Z /\ (0 <= dim_out)%Z
  /\ exists fill, xavier_normal_ [Z.to_nat dim_out; Z.to_nat dim_in] = Ok fill
                  /\ m = fresh_memory dim_in dim_out lr_ fill.
Proof.
  unfold LinearMemory_init, construct_layers.
  destruct (torch_empty [dim_out; dim_in]) as [s|] eqn:Es; [|discriminate].
  apply torch_empty_2 in Es. destruct Es as (Ho & Hi & ->).
  destruct (xavier_normal_ [Z.to_nat dim_out; Z.to_nat dim_in]) as [fill|]; [|discriminate].
  rewrite construct_layers_run. simpl. intros [= <-].
  repeat split; auto. exists fill. split; reflexivity.
Qed.

Lemma Linear_init_ok (attr : string) (n : Z) (l : Linear F) :
  Linear_init attr n n = Ok l -> l = fresh_linear attr n.
Proof.
  unfold Linear_init.
  destruct (torch_empty [n; n]) as [sw|] eqn:Ew.
  - apply torch_empty_2 in Ew. destruct Ew as (_ & _ & ->).
    destruct (torch_empty [n]) as [sb|] eqn:Eb; [|discriminate].
    apply torch_empty_1 in Eb. subst sb. unfold fresh_linear.
    destruct (linear_reset_parameters attr (Z.to_nat n) (Z.to_nat n)) as [wd bd].
    now intros [= <-].
  - destruct (torch_empty [n]); discriminate.
Qed.

Lemma NeuralMemory_init_ok (dim_in dim_out c : Z) (lr_ : F) (nm : NeuralMemory F) :
  NeuralMemory_init dim_in dim_out c lr_ = Ok nm ->
  (0 <= dim_in)%Z /\ (0 <= dim_out)%Z
  /\ exists fill,
       xavier_normal_ [Z.to_nat dim_out; Z.to_nat dim_in] = Ok fill
       /\ nm = mkNeuralMemory c (fresh_memory dim_in dim_out lr_ fill)
                 (fresh_linear "key" dim_in) (fresh_linear "value" dim_in)
                 (fresh_linear "query" dim_in).
Proof.
  unfold NeuralMemory_init.
  destruct (LinearMemory_init dim_in dim_out lr_) as [m|] eqn:Em; [|discriminate].
  apply LinearMemory_init_ok in Em. destruct Em as (Hi & Ho & fill & Hx & ->).
  destruct (Linear_init "key" dim_in dim_in) as [k|] eqn:Ek; [|discriminate].
  destruct (Linear_init "value" dim_in dim_in) as [v|] eqn:Ev; [|discriminate].
  destruct (Linear_init "query" dim_in dim_in) as [q|] eqn:Eq; [|discriminate].
  apply Linear_init_ok in Ek, Ev, Eq. subst. intros [= <-].
  repeat split; auto. exists fill. split; [exact Hx | reflexivity].
Qed.

(** X13.  A unit that [NeuralMemory(dim_in, dim_out, update_chunk_size, lr)]
    returns was given dimensions that are not negative; it holds the chunk
    size as given; its memory holds exactly the matrix "model" of shape
    [(dim_out, dim_in)] and a surprise buffer of zeros of that shape, and
    satisfies the pairing invariant; and each of its three projections has
    a weight of shape [(dim_in, dim_in)] and a bias of shape [(dim_in)]. *)
Theorem construction_postcondition (dim_in dim_out c : Z) (lr_ : F) (nm : NeuralMemory F) :
  NeuralMemory_init dim_in dim_out c lr_ = Ok nm ->
  (0 <= dim_in)%Z /\ (0 <= dim_out)%Z
  /\ update_chunk_size nm = c
  /\ lr (memory nm) = lr_
  /\ (exists model,
        named_buffers (memory nm)
        = [("model", model); ("model_surprise_tpast", zeros_like model)]
        /\ shape model = [Z.to_nat dim_out; Z.to_nat dim_in])
  /\ paired (memory nm)
  /\ forall l, In l [key nm; value nm; query nm] ->
       shape (weight l) = [Z.to_nat dim_in; Z.to_nat dim_in]
       /\ shape (bias l) = [Z.to_nat dim_in].
Proof.
  intros Hinit. apply NeuralMemory_init_ok in Hinit.
  destruct Hinit as (Hi & Ho & fill & _ & ->). simpl.
  split; [exact Hi|]. split; [exact Ho|]. split; [reflexivity|]. split; [reflexivity|].
  split; [|split].
  - eexists. split; reflexivity.
  - apply zero_paired_paired. simpl.
    apply (zero_paired_register "model" _ []); [reflexivity|].
    split; [constructor | discriminate].
  - intros l [<- | [<- | [<- | []]]]; split; reflexivity.
Qed.

(** *** Shapes through the projections and the memory *)

Lemma Linear_forward_2d (l : Linear F) (x y : tensor F) (out inp B d : nat) :
  shape (weight l) = [out; inp] -> shape x = [B; d] ->
  Linear_forward l x = Ok y -> d = inp /\ shape y = [B; out].
Proof.
  intros Hw Hx. unfold Linear_forward. rewrite Hw, Hx. simpl.
  destruct (d =? inp) eqn:E; [|discriminate].
  apply Nat.eqb_eq in E. intros [= <-]. auto.
Qed.

Lemma Linear_forward_2d_defined (l : Linear F) (x : tensor F) (out inp B : nat) :
  shape (weight l) = [out; inp] -> shape x = [B; inp] ->
  exists y, Linear_forward l x = Ok y /\ shape y = [B; out].
Proof.
  intros Hw Hx. unfold Linear_forward. rewrite Hw, Hx. simpl.
  rewrite Nat.eqb_refl. eexists. split; reflexivity.
Qed.

Lemma LinearMemory_forward_2d (m : MemoryModule F) (tr : list event) (x model : tensor F)
  (B din dout : nat) :
  lookup "model" (_buffers m) = Some model ->
  shape model = [dout; din] -> shape x = [B; din] ->
  exists y, LinearMemory_forward x (mkWorld m tr) = (mkWorld m tr, Ok y)
            /\ shape y = [B; dout].
Proof.
  intros Hm Hsm Hsx.
  assert (Px : permute10 x
               = Ok {| shape := [din; B];
                       data := tabulate2 din B (fun j i => entry (data x) din i j) |})
    by (unfold permute10; now rewrite Hsx).
  unfold LinearMemory_forward, bind, get_buffer, lift. simpl.
  rewrite Hm, Px. unfold matmul. rewrite Hsm. simpl. rewrite Nat.eqb_refl.
  eexists. split; reflexivity.
Qed.

Lemma surprise_metric_incompatible (a b : tensor F) (B p q : nat) :
  shape a = [B; p] -> shape b = [B; q] -> p <> q -> p <> 1 -> q <> 1 ->
  surprise_metric a b = Err RuntimeError.
Proof.
  intros Ha Hb Hpq Hp Hq. unfold surprise_metric, broadcast_shapes. rewrite Ha, Hb. simpl.
  rewrite Nat.eqb_refl.
  apply Nat.eqb_neq in Hpq, Hp, Hq. now rewrite Hpq, Hp, Hq.
Qed.

Lemma on_memory_pure_run {A : Type} (m : Mem A) (w : NMWorld) (r : result A) :
  m (mkWorld (memory (obj w)) (trace w)) = (mkWorld (memory (obj w)) (trace w), r) ->
  on_memory m w = (w, r).
Proof.
  unfold on_memory. intros ->. destruct w as [[c mem k v q] tr]. reflexivity.
Qed.

(** A unit whose projections and memory have the shapes construction gives
    them for [dim_in] and [dim_out]. *)
Definition shaped (nm : NeuralMemory F) (din dout : nat) : Prop :=
  shape (weight (key nm)) = [din; din]
  /\ shape (weight (value nm)) = [din; din]
  /\ shape (weight (query nm)) = [din; din]
  /\ exists model, lookup "model" (_buffers (memory nm)) = Some model
                   /\ shape model = [dout; din].

Lemma constructed_shaped (dim_in dim_out c : Z) (lr_ : F) (nm : NeuralMemory F) :
  NeuralMemory_init dim_in dim_out c lr_ = Ok nm ->
  shaped nm (Z.to_nat dim_in) (Z.to_nat dim_out).
Proof.
  intros Hinit. apply NeuralMemory_init_ok in Hinit.
  destruct Hinit as (_ & _ & fill & _ & ->).
  repeat split. eexists. split; reflexivity.
Qed.

Lemma chunk_step_unequal_dims (x : tensor F) (w : NMWorld) (din dout : nat) :
  shaped (obj w) din dout -> dout <> din -> dout <> 1 -> din <> 1 ->
  ndim x = 2 ->
  exists e, chunk_step x w = (w, Err e).
Proof.
  intros (Hk & Hv & _ & model & Hm & Hsm) Hne Ho Hi Hx.
  unfold ndim in Hx. destruct (shape x) as [|B [|d [|? ?]]] eqn:Hsx; try discriminate.
  unfold chunk_step, bind, gets, lift.
  destruct (Linear_forward (key (obj w)) x) as [k|e] eqn:Ek; [|now exists e].
  destruct (Linear_forward (value (obj w)) x) as [v|e] eqn:Ev; [|now exists e].
  destruct (Linear_forward_2d _ _ _ _ _ _ _ Hk Hsx Ek) as [-> Hsk].
  destruct (Linear_forward_2d _ _ _ _ _ _ _ Hv Hsx Ev) as [_ Hsv].
  destruct (LinearMemory_forward_2d (memory (obj w)) (trace w) k model B din dout Hm Hsm Hsk)
    as (pred & Hf & Hsp).
  rewrite (on_memory_pure_run _ _ _ Hf).
  rewrite (surprise_metric_incompatible pred v B dout din Hsp Hsv Hne Ho Hi).
  now exists RuntimeError.
Qed.

(** X14.  The value projection has the width [dim_in] and the memory
    predicts rows of width [dim_out]: on a unit constructed with
    [dim_out <> dim_in], neither of them 1, [condition] raises on every
    input, before any update, and leaves the unit as it was. *)
Theorem condition_needs_equal_dims (dim_in dim_out c : Z) (lr_ : F) (nm : NeuralMemory F)
  (x : tensor F) (tr : list event) :
  NeuralMemory_init dim_in dim_out c lr_ = Ok nm ->
  dim_out <> dim_in -> dim_out <> 1%Z -> dim_in <> 1%Z ->
  exists e, condition x (mkWorld nm tr) = (mkWorld nm tr, Err e).
Proof.
  intros Hinit Hne Ho Hi.
  pose proof (constructed_shaped _ _ _ _ _ Hinit) as Hsh.
  apply NeuralMemory_init_ok in Hinit. destruct Hinit as (Hi0 & Ho0 & _).
  unfold condition. unfold bind at 1. unfold gets at 1.
  unfold bind at 1. unfold lift at 1.
  destruct (split1 x _) as [chunks|e] eqn:Es; [|now exists e].
  destruct (split1_chunks _ _ _ Es) as [Hnil Hnd].
  destruct chunks as [|ch chunks]; [congruence|].
  destruct (Nat.eq_dec (ndim ch) 2) as [E2 | N2].
  - rewrite condition_loop_cons.
    assert (N1 : Z.to_nat dim_out <> Z.to_nat dim_in) by lia.
    assert (N2 : Z.to_nat dim_out <> 1) by lia.
    assert (N3 : Z.to_nat dim_in <> 1) by lia.
    destruct (chunk_step_unequal_dims ch (mkWorld nm tr) _ _ Hsh N1 N2 N3 E2) as [e He].
    rewrite He. now exists e.
  - now apply condition_loop_not_2d.
Qed.

(** X15.  On a constructed unit, [forward] on a batch of [B] rows of width
    [dim_in] returns [B] rows of width [dim_out], with the query projection
    or without it, and leaves the unit as it was. *)
Theorem forward_shape (dim_in dim_out c : Z) (lr_ : F) (nm : NeuralMemory F)
  (x : tensor F) (B : nat) (query_flag : bool) (tr : list event) :
  NeuralMemory_init dim_in dim_out c lr_ = Ok nm ->
  shape x = [B; Z.to_nat dim_in] ->
  exists y, forward x query_flag (mkWorld nm tr) = (mkWorld nm tr, Ok y)
            /\ shape y = [B; Z.to_nat dim_out].
Proof.
  intros Hinit Hsx.
  destruct (constructed_shaped _ _ _ _ _ Hinit) as (_ & _ & Hq & model & Hm & Hsm).
  unfold forward, bind.
  assert (Hx' : exists x', (if query_flag
                            then (fun s => match gets (fun w => query (obj w)) s with
                                           | (s', Ok q) => lift (Linear_forward q x) s'
                                           | (s', Err e) => (s', Err e)
                                           end)
                            else ret x) (mkWorld nm tr)
                           = (mkWorld nm tr, Ok x')
                           /\ shape x' = [B; Z.to_nat dim_in]).
  { destruct query_flag.
    - unfold gets, lift. simpl.
      destruct (Linear_forward_2d_defined (query nm) x _ _ B Hq Hsx) as (x' & -> & Hs').
      now exists x'.
    - exists x. split; [reflexivity | exact Hsx]. }
  destruct Hx' as (x' & Hrun & Hs').
  destruct query_flag; unfold bind in Hrun; rewrite Hrun;
    destruct (LinearMemory_forward_2d (memory nm) tr x' model B _ _ Hm Hsm Hs')
      as (y & Hf & Hsy);
    exists y; (split; [|exact Hsy]);
    apply (on_memory_pure_run _ (mkWorld nm tr)); exact Hf.
Qed.

(** *** The value [condition] returns *)

(** [s_t] of a chunk at a state: the L1 distance between what the memory,
    as it is there, predicts from the key projection of the chunk, and the
    value projection of the chunk. *)
Definition chunk_value (x : tensor F) (w : NMWorld) : result F :=
  match Linear_forward (key (obj w)) x, Linear_forward (value (obj w)) x with
  | Ok k, Ok v =>
      match snd (LinearMemory_forward k (mkWorld (memory (obj w)) (trace w))) with
      | Ok pred => surprise_metric pred v
      | Err e => Err e
      end
  | Err e, _ => Err e
  | _, Err e => Err e
  end.

Lemma chunk_step_value (x : tensor F) (w w1 : NMWorld) (s : F) :
  chunk_step x w = (w1, Ok s) -> chunk_value x w = Ok s.
Proof.
  unfold chunk_step, chunk_value, bind, gets, lift, ret.
  destruct (Linear_forward (key (obj w)) x) as [k|]; [|discriminate].
  destruct (Linear_forward (value (obj w)) x) as [v|]; [|discriminate].
  pose proof (on_memory_pure (LinearMemory_forward k) w
                (LinearMemory_forward_pure k _)) as Hp.
  pose proof (on_memory_result (LinearMemory_forward k) w) as Hr.
  destruct (on_memory (LinearMemory_forward k) w) as [w0 [pred|]];
    simpl in Hp, Hr; subst w0; [|discriminate].
  rewrite <- Hr.
  destruct (surprise_metric pred v) as [s'|]; [|discriminate].
  destruct (autograd_grad _ _) as [grads|]; [|discriminate].
  destruct (on_memory _ w) as [w2 [[]|]]; [|discriminate].
  now intros [= _ <-].
Qed.

(** A completed run over chunks: the states it goes through and the value
    of each chunk, taken at the state the chunks before it left. *)
Inductive chunk_run : list (tensor F) -> NMWorld -> list F -> NMWorld -> Prop :=
| run_nil (w : NMWorld) : chunk_run [] w [] w
| run_cons (x : tensor F) (chunks : list (tensor F)) (w w1 w' : NMWorld)
    (s : F) (ss : list F) :
    chunk_value x w = Ok s ->
    chunk_step x w = (w1, Ok s) ->
    chunk_run chunks w1 ss w' ->
    chunk_run (x :: chunks) w (s :: ss) w'.

Lemma condition_loop_run (chunks : list (tensor F)) (total t : F) (w w' : NMWorld) :
  condition_loop chunks total w = (w', Ok t) ->
  exists ss, chunk_run chunks w ss w' /\ t = fold_left Fadd ss total.
Proof.
  revert total w. induction chunks as [|x chunks IH]; intros total w Hrun.
  - injection Hrun as <- <-. exists []. split; [constructor | reflexivity].
  - rewrite condition_loop_cons in Hrun.
    destruct (chunk_step x w) as [w1 [s|]] eqn:Es; [|discriminate].
    destruct (IH _ _ Hrun) as (ss & Hss & ->).
    exists (s :: ss). split; [|reflexivity].
    apply run_cons with w1; auto. now apply chunk_step_value with w1.
Qed.

Lemma chunk_run_loop (chunks : list (tensor F)) (ss : list F) (w w' : NMWorld) :
  chunk_run chunks w ss w' ->
  forall total, condition_loop chunks total w = (w', Ok (fold_left Fadd ss total)).
Proof.
  induction 1 as [w | x chunks w w1 w' s ss Hv Hs Hr IH]; intros total.
  - reflexivity.
  - rewrite condition_loop_cons, Hs. apply IH.
Qed.

(** X16.  The value a completed [condition] returns is the sum, from 0 and
    in the order of the chunks, of the values [s_t] of the chunks, each
    taken on the memory as the chunks before it left it; and the running
    total is never read: the loop started from any other total ends in the
    same state. *)
Theorem condition_returns_running_sum (x : tensor F) (w w' : NMWorld) (t : F) :
  condition x w = (w', Ok t) ->
  exists chunks ss,
    split1 x (update_chunk_size (obj w)) = Ok chunks
    /\ chunk_run chunks w ss w'
    /\ t = fold_left Fadd ss Fzero
    /\ forall total, condition_loop chunks total w = (w', Ok (fold_left Fadd ss total)).
Proof.
  unfold condition, bind, gets, lift.
  destruct (split1 x (update_chunk_size (obj w))) as [chunks|]; [|discriminate].
  intros Hrun. destruct (condition_loop_run _ _ _ _ _ Hrun) as (ss & Hss & ->).
  exists chunks, ss. repeat split; auto. now apply chunk_run_loop.
Qed.

(** *** The version without chunks *)

Definition single_of (nm : NeuralMemory F) : SingleStep.NeuralMemory F :=
  SingleStep.mkNeuralMemory (memory nm) (key nm) (value nm) (query nm).

Definition single_world (w : NMWorld) : world (SingleStep.NeuralMemory F) :=
  mkWorld (single_of (obj w)) (trace w).





End Conditioning.

(** * Conditioning on inputs the code accepts *)

Section Accepted.
Context {F : Type} `{Scalar F} `{Runtime F}.

Local Abbreviation NMWorld := (world (NeuralMemory F)).

Lemma assign_same (n : string) (t : tensor F) (b : buffers F) :
  lookup n b = Some t -> assign n t b = b.
Proof.
  induction b as [|[k v] b IH]; simpl; [discriminate|].
  destruct (String.eqb k n) eqn:E.
  - now intros [= ->].
  - intros Hl. now rewrite IH.
Qed.

(** Putting the current weights back changes nothing. *)
Lemma with_weights_current (m : MemoryModule F) :
  NoDup (keys (_buffers m)) -> with_weights m (get_weights m) = m.
Proof.
  intros Hnd. unfold with_weights, get_weights.
  assert (E : forall l b,
            (forall p, In p l -> lookup (fst p) b = Some (snd p)) ->
            fold_left (fun b (p : (string * tensor F) * tensor F) =>
                         assign (fst (fst p)) (snd p) b)
                      (combine l (map snd l)) b = b).
  { induction l as [|[n t] l IH]; intros b Hb; [reflexivity|].
    simpl. rewrite assign_same by (apply (Hb (n, t)); now left).
    apply IH. intros p Hp. apply Hb. now right. }
  rewrite E.
  - now destruct m.
  - intros [n t] Hin. now apply named_weight_lookup.
Qed.

(** The only weight of the memory is "model", the one [forward] reads. *)
Definition linear_store (m : MemoryModule F) : Prop :=
  map fst (get_named_weights m) = ["model"].

(** For such a memory the engine returns, where the scalar is defined, one
    gradient per leaf and of the shape of the leaf, as [torch.autograd.grad]
    does for leaves the scalar depends on. *)
Definition engine_returns_shaped_gradients : Prop :=
  forall (m : MemoryModule F) (k v : tensor F) (s : F),
    linear_store m ->
    surprise_of m k v (get_weights m) = Ok s ->
    exists gs, autograd_grad (surprise_of m k v) (get_weights m) = Ok gs
               /\ Forall2 (fun g w => shape g = shape w) gs (get_weights m).

Lemma Forall2_nth_error {A B : Type} (P : A -> B -> Prop) (l : list A) (l' : list B)
  (i : nat) (a : A) (b : B) :
  Forall2 P l l' -> nth_error l i = Some a -> nth_error l' i = Some b -> P a b.
Proof.
  intros Hf. revert i. induction Hf as [|x y l l' Hxy Hf IH]; intros [|i]; simpl;
    try discriminate.
  - now intros [= <-] [= <-].
  - apply IH.
Qed.

Lemma chunk_step_accepted (x : tensor F) (w : NMWorld) (B d : nat) :
  engine_returns_shaped_gradients ->
  shaped (obj w) d d -> paired (memory (obj w)) -> linear_store (memory (obj w)) ->
  shape x = [B; d] ->
  exists w1 s,
    chunk_step x w = (w1, Ok s)
    /\ shaped (obj w1) d d /\ paired (memory (obj w1)) /\ linear_store (memory (obj w1)).
Proof.
  intros Heng (Hk & Hv & Hq & model & Hm & Hsm) Hp Hlin Hsx.
  pose proof (proj1 Hp) as Hnd.
  destruct (Linear_forward_2d_defined _ x _ _ B Hk Hsx) as (k & Ek & Hsk).
  destruct (Linear_forward_2d_defined _ x _ _ B Hv Hsx) as (v & Ev & Hsv).
  destruct (LinearMemory_forward_2d (memory (obj w)) (trace w) k model B d d Hm Hsm Hsk)
    as (pred & Hf & Hsp).
  assert (Es : exists s, surprise_metric pred v = Ok s).
  { unfold surprise_metric. rewrite Hsp, Hsv, broadcast_refl. eexists. reflexivity. }
  destruct Es as [s Es].
  assert (El : exists s', surprise_of (memory (obj w)) k v (get_weights (memory (obj w)))
                          = Ok s').
  { unfold surprise_of. rewrite (with_weights_current _ Hnd).
    destruct (LinearMemory_forward_2d (memory (obj w)) [] k model B d d Hm Hsm Hsk)
      as (pred' & -> & Hsp').
    unfold surprise_metric. rewrite Hsp', Hsv, broadcast_refl. eexists. reflexivity. }
  destruct El as [s' El].
  destruct (Heng _ _ _ _ Hlin El) as (gs & Eg & Hgs).
  destruct (update_same_shapes (memory (obj w)) (trace w) (map Some gs)
              (Flit (9 # 10)) (Flit (1 # 10)) Hp) as (wm & Eu & Hpm & Hnames & Hshapes).
  { rewrite length_map, (Forall2_length Hgs). unfold get_weights. now rewrite length_map. }
  { intros j n wt g Hw Hg. rewrite nth_error_map in Hg.
    destruct (nth_error gs j) as [g'|] eqn:Eg'; [|discriminate].
    injection Hg as <-.
    refine (Forall2_nth_error _ _ _ j g' wt Hgs Eg' _).
    unfold get_weights. now rewrite nth_error_map, Hw. }
  exists (mkWorld (set_memory (obj w) (obj wm)) (trace wm)), s. split; [|split; [|split]].
  - unfold chunk_step, bind, gets, lift, ret. rewrite Ek, Ev.
    rewrite (on_memory_pure_run _ _ _ Hf), Es, Eg.
    unfold on_memory. now rewrite Eu.
  - simpl. repeat split; auto.
    destruct (Hshapes "model" model) as (wt' & s'' & Hl' & Hs' & _).
    { apply lookup_named_weight; [exact Hm | reflexivity]. }
    exists wt'. split; [exact Hl' | congruence].
  - exact Hpm.
  - unfold linear_store. simpl. now rewrite Hnames.
Qed.

Lemma condition_loop_accepted (chunks : list (tensor F)) (total : F) (w : NMWorld)
  (B d : nat) :
  engine_returns_shaped_gradients ->
  shaped (obj w) d d -> paired (memory (obj w)) -> linear_store (memory (obj w)) ->
  Forall (fun ch => shape ch = [B; d]) chunks ->
  exists w' t,
    condition_loop chunks total w = (w', Ok t)
    /\ shaped (obj w') d d /\ paired (memory (obj w')) /\ linear_store (memory (obj w')).
Proof.
  intros Heng Hsh Hp Hlin Hch. revert total w Hsh Hp Hlin.
  induction Hch as [|x chunks Hx Hch IH]; intros total w Hsh Hp Hlin.
  - exists w, total. split; [reflexivity | split; [exact Hsh | split; assumption]].
  - destruct (chunk_step_accepted x w B d Heng Hsh Hp Hlin Hx)
      as (w1 & s & Es & Hsh1 & Hp1 & Hlin1).
    destruct (IH (Fadd total s) w1 Hsh1 Hp1 Hlin1) as (w' & t & Er & Hrest).
    exists w', t. rewrite condition_loop_cons, Es. auto.
Qed.

Lemma num_splits_multiple (n d : nat) : 1 <= n -> 1 <= d -> num_splits (n * d) d = n.
Proof.
  intros Hn Hd. unfold num_splits.
  assert ((n * d + d - 1) / d = n).
  { symmetry. apply Nat.div_unique with (d - 1); lia. }
  lia.
Qed.

(** X18.  The inputs [condition] accepts: a matrix of [B] rows whose second
    axis is [n >= 1] chunks of the width [d] of the projections, on a unit
    of chunk size [d] with [dim_in = dim_out = d] whose memory has the one
    weight "model" and satisfies the pairing invariant.  With an engine that
    returns a gradient of the shape of the weight, the call completes after
    [n] updates and leaves a unit of which all this holds again, so that it
    can be conditioned again. *)
Theorem condition_completes (x : tensor F) (w : NMWorld) (B d n : nat) :
  engine_returns_shaped_gradients ->
  shaped (obj w) d d -> paired (memory (obj w)) -> linear_store (memory (obj w)) ->
  update_chunk_size (obj w) = Z.of_nat d ->
  1 <= d -> 1 <= n ->
  shape x = [B; n * d] ->
  exists w' t,
    condition x w = (w', Ok t)
    /\ update_calls (trace w') = update_calls (trace w) + n
    /\ shaped (obj w') d d /\ paired (memory (obj w')) /\ linear_store (memory (obj w')).
Proof.
  intros Heng Hsh Hp Hlin Hc Hd Hn Hsx.
  assert (Hc0 : (0 < update_chunk_size (obj w))%Z) by lia.
  destruct (split1_count x _ B (n * d) [] Hsx Hc0) as (chunks & Es & Hlen & Hshapes).
  rewrite Hc, Nat2Z.id, (num_splits_multiple n d Hn Hd) in Hlen, Hshapes.
  assert (Hch : Forall (fun ch => shape ch = [B; d]) chunks).
  { apply Forall_forall. intros ch Hin. destruct (In_nth_error _ _ Hin) as [i Hi].
    assert (Hlt : i < n) by (rewrite <- Hlen; apply nth_error_Some; congruence).
    specialize (Hshapes i Hlt). rewrite Hi in Hshapes. simpl in Hshapes.
    injection Hshapes as ->. f_equal.
    destruct (i <? n - 1); [reflexivity|]. f_equal. nia. }
  destruct (condition_loop_accepted chunks Fzero w B d Heng Hsh Hp Hlin Hch)
    as (w' & t & Er & Hrest).
  assert (Hrun : condition x w = (w', Ok t)).
  { unfold condition, bind, gets, lift. now rewrite Es. }
  exists w', t. split; [exact Hrun|]. split; [|auto].
  rewrite (condition_loop_counts _ _ _ _ _ Er). now rewrite Hlen.
Qed.

End Accepted.

(** * Further runs on rational scalars *)

Module Coverage.
Import Demo.

Open Scope Q_scope.

(** X4 at [two_store]: the gradient of "model" has the shape of the weight,
    the gradient of "gate" is the marker. *)
Lemma update_keeps_shapes_witness :
  exists w',
    update one_missing (9 # 10) (1 # 10) (mkWorld two_store []) = (w', Ok tt)
    /\ paired (obj w')
    /\ map fst (get_named_weights (obj w')) = map fst (get_named_weights two_store)
    /\ forall n wt, In (n, wt) (get_named_weights two_store) ->
         exists wt' s',
           lookup n (buf w') = Some wt' /\ shape wt' = shape wt
           /\ lookup (_get_corresponding_surprise_name n) (buf w') = Some s'
           /\ shape s' = shape wt.
Proof.
  refine (update_keeps_shapes two_store [] one_missing (9 # 10) (1 # 10)
            two_store_paired eq_refl _).
  intros [|[|j]] n wt g Hw Hg; simpl in Hw, Hg; try discriminate.
  - injection Hw as <- <-. injection Hg as <-. reflexivity.
  - destruct j; discriminate.
Defined.

(** A store whose weight was registered without a surprise buffer. *)
Definition bare_store : MemoryModule Q :=
  mkMemoryModule (1 # 10) 2 2 [("model", w_model)].

(** X5 at [bare_store], with the marker as gradient. *)
Lemma update_needs_the_surprise_buffer_witness :
  update [None] (9 # 10) (1 # 10) (mkWorld bare_store [])
  = (mkWorld bare_store ([] ++ [UpdateCall]), Err AttributeError).
Proof.
  exact (update_needs_the_surprise_buffer bare_store [] [None] (9 # 10) (1 # 10)
           "model" w_model [] eq_refl eq_refl eq_refl).
Defined.

Definition one_layer : list (string * tensor Q) := [("model", w_model)].

Definition one_store : MemoryModule Q :=
  obj (fst (_construct_layers one_layer (mkWorld (mkMemoryModule (1 # 10) 2 2 []) []))).

(** X6 after two updates of a store with the layer of LinearMemory. *)
Lemma linear_memory_has_one_weight_witness :
  exists w s,
    named_buffers
      (obj (fst (update [Some w_gate] (9 # 10) (1 # 10)
                   (mkWorld (obj (fst (update [Some g_model] (9 # 10) (1 # 10)
                                         (mkWorld one_store [])))) []))))
    = [("model", w); ("model_surprise_tpast", s)]
    /\ get_named_weights
         (obj (fst (update [Some w_gate] (9 # 10) (1 # 10)
                      (mkWorld (obj (fst (update [Some g_model] (9 # 10) (1 # 10)
                                            (mkWorld one_store [])))) []))))
       = [("model", w)]
    /\ shape s = shape w.
Proof.
  apply (linear_memory_has_one_weight w_model).
  apply reach_update. apply reach_update. apply reach_init.
Defined.

Definition x_wide : tensor Q := {| shape := [1; 3]%nat; data := [1; 2; 3] |}.

(** X7 at [two_store]: rows of width 3 for a weight of width 2. *)
Lemma forward_rejects_wrong_width_witness :
  LinearMemory_forward x_wide (mkWorld two_store []) = (mkWorld two_store [], Err RuntimeError).
Proof.
  refine (forward_rejects_wrong_width two_store [] x_wide w_model 1 3 2 2
            eq_refl eq_refl eq_refl _).
  discriminate.
Defined.

(** A gradient of three entries for the two entries of "gate". *)
Definition g_bad : tensor Q := {| shape := [3]%nat; data := [1; 1; 1] |}.

Definition bad_second : list (option (tensor Q)) := [Some g_model; Some g_bad].

(** X8 at [two_store]: "model" is written, then the gradient of "gate"
    raises. *)
Lemma update_stops_at_bad_gradient_witness :
  exists w',
    update bad_second (9 # 10) (1 # 10) (mkWorld two_store []) = (w', Err RuntimeError)
    /\ (forall i ni wi gi, (i < 1)%nat ->
          nth_error (get_named_weights two_store) i = Some (ni, wi) ->
          nth_error bad_second i = Some (Some gi) ->
          exists surprise_old surprise_new weight_new,
            lookup (_get_corresponding_surprise_name ni) (_buffers two_store)
            = Some surprise_old
            /\ tadd (smul (9 # 10) surprise_old) (smul (lr two_store) gi) = Ok surprise_new
            /\ tadd (smul (Fsub Fone (1 # 10)) wi) surprise_new = Ok weight_new
            /\ lookup (_get_corresponding_surprise_name ni) (buf w') = Some surprise_new
            /\ lookup ni (buf w') = Some weight_new)
    /\ (forall i ni wi, (1 <= i)%nat ->
          nth_error (get_named_weights two_store) i = Some (ni, wi) ->
          lookup ni (buf w') = Some wi
          /\ lookup (_get_corresponding_surprise_name ni) (buf w')
             = lookup (_get_corresponding_surprise_name ni) (_buffers two_store)).
Proof.
  refine (update_stops_at_bad_gradient two_store [] bad_second (9 # 10) (1 # 10)
            1 "gate" w_gate g_bad two_store_paired eq_refl eq_refl eq_refl eq_refl _).
  intros [|i] ni wi gi Hlt Hw Hg; [|lia].
  simpl in Hw, Hg. injection Hw as <- <-. injection Hg as <-. vm_compute. discriminate.
Defined.

Lemma update_stops_at_bad_gradient_run :
  snd (update bad_second (9 # 10) (1 # 10) (mkWorld two_store [])) = Err RuntimeError
  /\ lookup "model" (buf (fst (update bad_second (9 # 10) (1 # 10) (mkWorld two_store []))))
     <> lookup "model" (_buffers two_store).
Proof. split; [reflexivity | vm_compute; discriminate]. Qed.

Definition value_of (r : result Q) : Q :=
  match r with Ok v => v | Err _ => 0 end.

Lemma flat_unit_constructed : NeuralMemory_init 2 2 2 default_lr = Ok flat_unit.
Proof. reflexivity. Qed.

Lemma flat_unit_paired : paired (memory flat_unit).
Proof.
  apply (reachable_paired
           [("model", {| shape := [2; 2]%nat; data := [1 # 4; 2 # 4; 3 # 4; 4 # 4] |})]).
  - intros p [<- | []]. reflexivity.
  - exact (reach_init _ default_lr 2 2).
Qed.

(** X10 at the run of [flat_unit] on [flat_input]. *)
Lemma condition_keeps_pairing_witness :
  paired (memory (obj (fst (condition flat_input (mkWorld flat_unit []))))).
Proof.
  exact (condition_keeps_pairing flat_input (mkWorld flat_unit []) flat_unit_paired).
Defined.

Definition flat_after : world (NeuralMemory Q) :=
  fst (condition flat_input (mkWorld flat_unit [])).

Definition flat_total : Q := value_of (snd (condition flat_input (mkWorld flat_unit []))).

Lemma flat_run : condition flat_input (mkWorld flat_unit []) = (flat_after, Ok flat_total).
Proof. vm_compute. reflexivity. Qed.

(** X11 at that run: a sequence axis of length 4, chunks of size 2. *)
Lemma condition_one_update_per_chunk_witness :
  update_calls (trace flat_after) = (update_calls [] + num_splits 4 2)%nat
  /\ ((num_splits 4 2 - 1) * 2 < 4 <= num_splits 4 2 * 2)%nat.
Proof.
  refine (condition_one_update_per_chunk flat_input (mkWorld flat_unit []) flat_after
            flat_total 2 4 [] eq_refl _ _ flat_run).
  - lia.
  - reflexivity.
Defined.

(** X12 at a unit constructed with chunk size 0. *)
Lemma condition_rejects_nonpositive_chunk_size_witness :
  condition flat_input (mkWorld (unit_of (NeuralMemory_init 2 2 0 default_lr)) [])
  = (mkWorld (unit_of (NeuralMemory_init 2 2 0 default_lr)) [], Err RuntimeError).
Proof.
  refine (condition_rejects_nonpositive_chunk_size flat_input
            (mkWorld (unit_of (NeuralMemory_init 2 2 0 default_lr)) []) 2 4 [] eq_refl _ _).
  - lia.
  - simpl. lia.
Defined.

(** X13 at [flat_unit]. *)
Lemma construction_postcondition_witness :
  (0 <= 2)%Z /\ (0 <= 2)%Z
  /\ update_chunk_size flat_unit = 2%Z
  /\ lr (memory flat_unit) = default_lr
  /\ (exists model,
        named_buffers (memory flat_unit)
        = [("model", model); ("model_surprise_tpast", zeros_like model)]
        /\ shape model = [Z.to_nat 2; Z.to_nat 2])
  /\ paired (memory flat_unit)
  /\ forall l, In l [key flat_unit; value flat_unit; query flat_unit] ->
       shape (weight l) = [Z.to_nat 2; Z.to_nat 2]
       /\ shape (bias l) = [Z.to_nat 2].
Proof.
  exact (construction_postcondition 2 2 2 default_lr flat_unit flat_unit_constructed).
Defined.

(** A unit whose memory predicts rows of width 3 for values of width 2. *)
Definition uneven_unit : NeuralMemory Q := unit_of (NeuralMemory_init 2 3 2 default_lr).

(** X14 at [uneven_unit]. *)
Lemma condition_needs_equal_dims_witness :
  exists e, condition flat_input (mkWorld uneven_unit []) = (mkWorld uneven_unit [], Err e).
Proof.
  refine (condition_needs_equal_dims 2 3 2 default_lr uneven_unit flat_input []
            eq_refl _ _ _); discriminate.
Defined.

(** X15 at [uneven_unit]: three rows of width 2 give three rows of width 3. *)
Lemma forward_shape_witness :
  exists y, forward x_batch true (mkWorld uneven_unit []) = (mkWorld uneven_unit [], Ok y)
            /\ shape y = [3%nat; Z.to_nat 3].
Proof.
  exact (forward_shape 2 3 2 default_lr uneven_unit x_batch 3 true [] eq_refl eq_refl).
Defined.

(** X16 at the run of [flat_unit] on [flat_input]. *)
Lemma condition_returns_running_sum_witness :
  exists chunks ss,
    split1 flat_input (update_chunk_size flat_unit) = Ok chunks
    /\ chunk_run chunks (mkWorld flat_unit []) ss flat_after
    /\ flat_total = fold_left Fadd ss Fzero
    /\ forall total, condition_loop chunks total (mkWorld flat_unit [])
                     = (flat_after, Ok (fold_left Fadd ss total)).
Proof.
  exact (condition_returns_running_sum flat_input (mkWorld flat_unit []) flat_after
           flat_total flat_run).
Defined.

(** One chunk: two rows of width 2 for the chunk size 2. *)
Definition x_one_chunk : tensor Q := {| shape := [2; 2]%nat; data := [1; 2; 3; 4] |}.


(** The single-step version completes on that input, with one update. *)
Lemma single_step_run :
  exists s_t, snd (SingleStep.condition x_one_chunk (single_world (mkWorld flat_unit [])))
              = Ok s_t
  /\ trace (fst (SingleStep.condition x_one_chunk (single_world (mkWorld flat_unit []))))
     = [UpdateCall].
Proof. eexists. split; vm_compute; reflexivity. Qed.

(** An engine that returns a zero gradient for every leaf of a scalar that
    is defined. *)
Definition zero_grad (f : list (tensor Q) -> result Q) (ws : list (tensor Q))
  : result (list (tensor Q)) :=
  match f ws with
  | Ok _ => Ok (map zeros_like ws)
  | Err e => Err e
  end.

Definition zero_runtime : Runtime Q := {|
  autograd_grad := zero_grad;
  xavier_normal_ := @xavier_normal_ Q demo_runtime;
  linear_reset_parameters := @linear_reset_parameters Q demo_runtime
|}.

Lemma zero_engine_shaped : @engine_returns_shaped_gradients Q _ zero_runtime.
Proof.
  intros m k v s _ Hs. exists (map zeros_like (get_weights m)). split.
  - simpl. unfold zero_grad. now rewrite Hs.
  - clear Hs. induction (get_weights m) as [|t ts IH]; simpl.
    + constructor.
    + constructor; [reflexivity | exact IH].
Qed.

(** X18 at [flat_unit] and [flat_input]: two chunks of width 2. *)
Lemma condition_completes_witness :
  exists w' t,
    @condition Q _ zero_runtime flat_input (mkWorld flat_unit []) = (w', Ok t)
    /\ update_calls (trace w') = (update_calls [] + 2)%nat
    /\ shaped (obj w') 2 2 /\ paired (memory (obj w')) /\ linear_store (memory (obj w')).
Proof.
  refine (@condition_completes Q _ zero_runtime flat_input (mkWorld flat_unit []) 2 2 2
            zero_engine_shaped
            (constructed_shaped 2 2 2 default_lr flat_unit flat_unit_constructed)
            flat_unit_paired eq_refl eq_refl _ _ eq_refl); lia.
Defined.

End Coverage.

(** * The orchestrator with the imported memory class *)

Section Linked.
Context {F : Type} `{Scalar F} `{Runtime F}.

Local Abbreviation NMWorld := (world (NeuralMemory F)).

Lemma imported_forward_pure (x : tensor F) (w : world (MemoryModule F)) :
  fst (Imported.LinearMemory_forward x w) = w.
Proof.
  unfold Imported.LinearMemory_forward, bind, get_buffer, lift.
  destruct (lookup "model" (_buffers (obj w))) as [model|]; [|reflexivity].
  destruct (permute10 model) as [wt|]; [|reflexivity].
  destruct (matmul x wt); reflexivity.
Qed.

(** The body of the loop of [Imported.condition] for one chunk: key and
    value projections, prediction of the memory as it is, [s_t], gradient,
    and the update of the memory by the recurrence.  It returns [s_t]. *)
Definition imported_step (x : tensor F) : NM F :=
  k_ <- gets (fun w => key (obj w)) ;;
  k <- lift (Linear_forward k_ x) ;;
  v_ <- gets (fun w => value (obj w)) ;;
  v <- lift (Linear_forward v_ x) ;;
  pred <- on_memory (Imported.LinearMemory_forward k) ;;
  s_t <- lift (surprise_metric pred v) ;;
  m <- gets (fun w => memory (obj w)) ;;
  grads <- lift (autograd_grad (Imported.surprise_of m k v) (get_weights m)) ;;
  on_memory (update (map Some grads) (Flit (9 # 10)) (Flit (1 # 10))) ;;
  ret s_t.

Lemma imported_loop_cons (x : tensor F) (chunks : list (tensor F)) (total : F)
  (w : NMWorld) :
  Imported.condition_loop (x :: chunks) total w
  = match imported_step x w with
    | (w1, Ok s_t) => Imported.condition_loop chunks (Fadd total s_t) w1
    | (w1, Err e) => (w1, Err e)
    end.
Proof.
  simpl. unfold imported_step, bind, gets, lift, ret.
  destruct (Linear_forward (key (obj w)) x) as [k|]; [|reflexivity].
  destruct (Linear_forward (value (obj w)) x) as [v|]; [|reflexivity].
  destruct (on_memory (Imported.LinearMemory_forward k) w) as [w1 [pred|]]; [|reflexivity].
  destruct (surprise_metric pred v) as [s_t|]; [|reflexivity].
  destruct (autograd_grad _ _) as [grads|]; [|reflexivity].
  destruct (on_memory _ w1) as [w2 [[]|]]; reflexivity.
Qed.

Lemma imported_step_counts_once (x : tensor F) (w w1 : NMWorld) (s_t : F) :
  imported_step x w = (w1, Ok s_t) ->
  update_calls (trace w1) = S (update_calls (trace w)).
Proof.
  unfold imported_step, bind, gets, lift, ret.
  destruct (Linear_forward (key (obj w)) x) as [k|]; [|discriminate].
  destruct (Linear_forward (value (obj w)) x) as [v|]; [|discriminate].
  pose proof (on_memory_pure (Imported.LinearMemory_forward k) w
                (imported_forward_pure k _)) as Hp.
  destruct (on_memory (Imported.LinearMemory_forward k) w) as [w0 [pred|]]; [|discriminate].
  simpl in Hp. subst w0.
  destruct (surprise_metric pred v) as [s|]; [|discriminate].
  destruct (autograd_grad _ _) as [grads|]; [|discriminate].
  unfold on_memory.
  pose proof (update_counts_once (map Some grads) (Flit (9 # 10)) (Flit (1 # 10))
                (mkWorld (memory (obj w)) (trace w))) as Hc.
  destruct (update _ _ _ _) as [wm [[]|]]; [|discriminate].
  intros [= <- _]. exact Hc.
Qed.

(** [s_t] of a chunk at a state: the summed absolute difference between
    what the memory, as it is there, answers to the key projection of the
    chunk, and the value projection of the chunk. *)
Definition imported_value (x : tensor F) (w : NMWorld) : result F :=
  match Linear_forward (key (obj w)) x, Linear_forward (value (obj w)) x with
  | Ok k, Ok v =>
      match snd (Imported.LinearMemory_forward k (mkWorld (memory (obj w)) (trace w))) with
      | Ok pred => surprise_metric pred v
      | Err e => Err e
      end
  | Err e, _ => Err e
  | _, Err e => Err e
  end.

Lemma imported_step_value (x : tensor F) (w w1 : NMWorld) (s : F) :
  imported_step x w = (w1, Ok s) -> imported_value x w = Ok s.
Proof.
  unfold imported_step, imported_value, bind, gets, lift, ret.
  destruct (Linear_forward (key (obj w)) x) as [k|]; [|discriminate].
  destruct (Linear_forward (value (obj w)) x) as [v|]; [|discriminate].
  pose proof (on_memory_pure (Imported.LinearMemory_forward k) w
                (imported_forward_pure k _)) as Hp.
  pose proof (on_memory_result (Imported.LinearMemory_forward k) w) as Hr.
  destruct (on_memory (Imported.LinearMemory_forward k) w) as [w0 [pred|]];
    simpl in Hp, Hr; subst w0; [|discriminate].
  rewrite <- Hr.
  destruct (surprise_metric pred v) as [s'|]; [|discriminate].
  destruct (autograd_grad _ _) as [grads|]; [|discriminate].
  destruct (on_memory _ w) as [w2 [[]|]]; [|discriminate].
  now intros [= _ <-].
Qed.

(** A completed pass over chunks, one after the other: the step of a chunk
    starts from the state the step of the chunk before it left, makes one
    call of [update], and has the value [s_t] of the chunk at the state it
    starts from. *)
Inductive imported_run : list (tensor F) -> NMWorld -> list F -> NMWorld -> Prop :=
| imported_nil (w : NMWorld) : imported_run [] w [] w
| imported_cons (x : tensor F) (chunks : list (tensor F)) (w w1 w' : NMWorld)
    (s : F) (ss : list F) :
    imported_value x w = Ok s ->
    imported_step x w = (w1, Ok s) ->
    update_calls (trace w1) = S (update_calls (trace w)) ->
    imported_run chunks w1 ss w' ->
    imported_run (x :: chunks) w (s :: ss) w'.

Lemma imported_loop_run (chunks : list (tensor F)) (total t : F) (w w' : NMWorld) :
  Imported.condition_loop chunks total w = (w', Ok t) ->
  exists ss, imported_run chunks w ss w' /\ t = fold_left Fadd ss total.
Proof.
  revert total w. induction chunks as [|x chunks IH]; intros total w Hrun.
  - injection Hrun as <- <-. exists []. split; [constructor | reflexivity].
  - rewrite imported_loop_cons in Hrun.
    destruct (imported_step x w) as [w1 [s|]] eqn:Es; [|discriminate].
    destruct (IH _ _ Hrun) as (ss & Hss & ->).
    exists (s :: ss). split; [|reflexivity].
    apply imported_cons with w1; auto.
    + now apply imported_step_value with w1.
    + now apply imported_step_counts_once with x s.
Qed.

Lemma imported_run_loop (chunks : list (tensor F)) (ss : list F) (w w' : NMWorld) :
  imported_run chunks w ss w' ->
  forall total, Imported.condition_loop chunks total w
                = (w', Ok (fold_left Fadd ss total)).
Proof.
  induction 1 as [w | x chunks w w1 w' s ss Hv Hs Hc Hr IH]; intros total.
  - reflexivity.
  - rewrite imported_loop_cons, Hs. apply IH.
Qed.






(** C5.  With the memory class as the specification describes it: the
    value a call of [condition] that completes returns is the sum, from 0
    and in the order of the chunks, of one scalar per chunk, the summed
    absolute difference between the answer of the memory to the key
    projection of the chunk and its value projection, taken on the memory
    as the chunks before left it; detaching changes no value; and the total
    is not read by the recurrence: from any other starting total the loop
    goes through the same states and ends in the same one. *)
Theorem condition_returns_sum_of_chunk_values (x : tensor F) (w w' : NMWorld) (t : F) :
  Imported.condition x w = (w', Ok t) ->
  exists chunks ss,
    split1 x (update_chunk_size (obj w)) = Ok chunks
    /\ imported_run chunks w ss w'
    /\ t = fold_left Fadd ss Fzero
    /\ forall total, Imported.condition_loop chunks total w
                     = (w', Ok (fold_left Fadd ss total)).
Proof.
  unfold Imported.condition, bind, gets, lift.
  destruct (split1 x (update_chunk_size (obj w))) as [chunks|]; [|discriminate].
  intros Hrun. destruct (imported_loop_run _ _ _ _ _ Hrun) as (ss & Hss & ->).
  exists chunks, ss. repeat split; auto. now apply imported_run_loop.
Qed.

End Linked.

(** ** The scenario of the specification *)

Module Scenario.
Import Demo.

Definition scenario_after : world (NeuralMemory Q) :=
  fst (Imported.condition scenario_input (mkWorld scenario_unit [])).

Definition scenario_total : Q :=
  match snd (Imported.condition scenario_input (mkWorld scenario_unit [])) with
  | Ok v => v
  | Err _ => 0
  end.

(** The call of the scenario completes. *)
Lemma scenario_run :
  Imported.condition scenario_input (mkWorld scenario_unit [])
  = (scenario_after, Ok scenario_total).
Proof. vm_compute. reflexivity. Qed.

(** Three calls of [update], for the chunks of lengths 2, 2 and 1, and a
    memory that has moved. *)
Lemma scenario_updates :
  update_calls (trace scenario_after) = 3%nat
  /\ num_splits 5 2 = 3%nat
  /\ get_weights (memory (obj scenario_after)) <> get_weights (memory scenario_unit).
Proof.
  split; [vm_compute; reflexivity|]. split; [reflexivity|].
  vm_compute. discriminate.
Qed.


(** C5 at the scenario. *)
Lemma condition_returns_sum_of_chunk_values_witness :
  exists chunks ss,
    split1 scenario_input (update_chunk_size scenario_unit) = Ok chunks
    /\ imported_run chunks (mkWorld scenario_unit []) ss scenario_after
    /\ scenario_total = fold_left Fadd ss Fzero
    /\ forall total, Imported.condition_loop chunks total (mkWorld scenario_unit [])
                     = (scenario_after, Ok (fold_left Fadd ss total)).
Proof.
  exact (condition_returns_sum_of_chunk_values scenario_input (mkWorld scenario_unit [])
           scenario_after scenario_total scenario_run).
Defined.

End Scenario.
